(** * gen_test_bundle_invocation.py: the dart test bundle script generator

    A shallow embedding of [runtime/dart/gen_test_bundle_invocation.py] and
    of the parts of the Python library and of the POSIX filesystem it
    touches, followed by the properties of the generator.

    - Python [str] values are [string]s, sequences of bytes as in Python 2;
      the newline escape is [Str.nl].
    - The filesystem is a finite map from canonical absolute paths (lists of
      names, the root being the empty list) to inodes, inside a [world] that
      also carries the working directory, the credentials, the umask and the
      file size limit of the process, and the room the interpreter has left
      for nested calls. There are no symbolic links and no access control
      lists, a process belongs to one group, and the disk is never full: a
      write fails at the file size limit only.
    - Python code runs in the monad [Py]: a function of the world that
      either returns a value and a new world, or raises an exception and
      leaves the world as it was when the exception was raised. An error of
      a system call is raised as [EnvironmentError], the common parent of
      [IOError] and [OSError]; [parser.error], the help action and
      [sys.exit] leave through [SystemExit].
    - The command line is a list of option occurrences, as [argparse]
      recognises them; the parser has the options [main] registers, and
      [-h]/[--help], which [ArgumentParser] adds.

    The first part holds the definitions, the second part the lemmas and,
    under the names of the claims C1 to C10, the theorems; a last part
    holds further properties of [main], X1 to X14. *)

From Stdlib Require Import ZArith Lia Ascii.
From stdpp Require Import base option list strings gmap fin_maps.

Open Scope Z_scope.

(** ** Python strings *)

Module Str.

Definition nl : string := String "010"%char EmptyString.
Definition slash : ascii := "/"%char.

Definition is_slash (c : ascii) : bool := bool_decide (c = slash).

Definition is_empty (s : string) : bool :=
  match s with EmptyString => true | String _ _ => false end.

(** [startswith s "/"] *)
Definition starts_with_slash (s : string) : bool :=
  match s with String c _ => is_slash c | EmptyString => false end.

(** ['/' in s] *)
Fixpoint has_slash (s : string) : bool :=
  match s with
  | EmptyString => false
  | String c s' => is_slash c || has_slash s'
  end.

(** [s == '/' * len(s)] *)
Fixpoint all_slashes (s : string) : bool :=
  match s with
  | EmptyString => true
  | String c s' => is_slash c && all_slashes s'
  end.

(** [s.rstrip('/')] *)
Fixpoint rstrip_slash (s : string) : string :=
  match s with
  | EmptyString => EmptyString
  | String c s' =>
      match rstrip_slash s' with
      | EmptyString => if is_slash c then EmptyString else String c EmptyString
      | r => String c r
      end
  end.

(** [(s[:i], s[i:])] for [i = s.rfind('/') + 1]: the text up to and
    including the last slash, and the text after it. *)
Fixpoint rpartition_slash (s : string) : string * string :=
  match s with
  | EmptyString => (EmptyString, EmptyString)
  | String c s' =>
      match rpartition_slash s' with
      | (EmptyString, t) =>
          if is_slash c then (String c EmptyString, t)
          else (EmptyString, String c t)
      | (h, t) => (String c h, t)
      end
  end.

(** [s.endswith('/')] *)
Fixpoint ends_with_slash (s : string) : bool :=
  match s with
  | EmptyString => false
  | String c EmptyString => is_slash c
  | String _ s' => ends_with_slash s'
  end.

(** [s.split('/')]: never empty, the empty string gives one empty string. *)
Fixpoint split_slash (s : string) : list string :=
  match s with
  | EmptyString => [EmptyString]
  | String c s' =>
      if is_slash c then EmptyString :: split_slash s'
      else match split_slash s' with
           | x :: xs => String c x :: xs
           | [] => [String c EmptyString]
           end
  end.

(** ['\n'.join(l)] and friends. *)
Fixpoint join (sep : string) (l : list string) : string :=
  match l with
  | [] => EmptyString
  | [x] => x
  | x :: xs => x +:+ sep +:+ join sep xs
  end.

Fixpoint concat (l : list string) : string :=
  match l with
  | [] => EmptyString
  | x :: xs => x +:+ concat xs
  end.

(** [s[:n]] *)
Fixpoint take (n : nat) (s : string) : string :=
  match n, s with
  | S n', String c s' => String c (take n' s')
  | _, _ => EmptyString
  end.

End Str.

(** ** The POSIX filesystem, as far as the generator touches it *)

Module Posix.

Inductive errno :=
  ENOENT | EEXIST | ENOTDIR | EISDIR | EACCES | EPERM | EFBIG | EBADF.

Inductive kind := Dir | Reg (data : string).

Record inode := Inode {
  i_kind : kind;
  i_mode : Z;      (* the mode bits, 0o0000 .. 0o7777 *)
  i_uid : nat;
  i_gid : nat }.

(** Canonical absolute paths: the names from the root down. *)
Abbreviation cpath := (list string).

(** The filesystem and the process. [fsize_limit] is the soft limit
    RLIMIT_FSIZE, in bytes, [None] when there is none. [depth_left] belongs
    to the Python interpreter: how many calls of [os.makedirs] may nest
    inside the one [main] makes before the recursion limit is exceeded. *)
Record world := World {
  files : gmap cpath inode;
  cwd : cpath;
  euid : nat;
  egid : nat;
  umask : Z;
  fsize_limit : option nat;
  depth_left : nat }.

(** The modes the library passes to [open] and [mkdir]: 0o666 and 0o777. *)
Definition mode_0666 : Z := 438.
Definition mode_0777 : Z := 511.

(** The set-user-ID and set-group-ID bits: 0o4000 and 0o2000. *)
Definition S_ISUID : Z := 2048.
Definition S_ISGID : Z := 1024.

Inductive access := R_OK | W_OK | X_OK.

Definition access_bit (a : access) : Z :=
  match a with R_OK => 2 | W_OK => 1 | X_OK => 0 end.

(** The permission check of the kernel: the superuser passes, the owner is
    judged on the owner bits, a member of the file's group on the group
    bits, anyone else on the other bits. *)
Definition may (w : world) (i : inode) (a : access) : bool :=
  if bool_decide (euid w = 0%nat) then true
  else if bool_decide (euid w = i_uid i) then Z.testbit (i_mode i) (6 + access_bit a)
  else if bool_decide (egid w = i_gid i) then Z.testbit (i_mode i) (3 + access_bit a)
  else Z.testbit (i_mode i) (access_bit a).

Definition is_dir (i : inode) : bool :=
  match i_kind i with Dir => true | Reg _ => false end.

(** [c] has to be a directory the process may search (a name is looked
    up in it). *)
Definition search_dir (w : world) (c : cpath) : option errno :=
  match files w !! c with
  | None => Some ENOENT
  | Some i =>
      if is_dir i then (if may w i X_OK then None else Some EACCES)
      else Some ENOTDIR
  end.

Definition is_dot (s : string) : bool := bool_decide (s = ".").
Definition is_dotdot (s : string) : bool := bool_decide (s = "..").

(** The names of a path: [p.split('/')] without the empty strings that
    doubled, leading and trailing slashes leave. *)
Definition comps (p : string) : list string :=
  List.filter (fun c => negb (Str.is_empty c)) (Str.split_slash p).

(** Path resolution, one name at a time, from directory [cur]. The result
    is where the names lead; whether the last one exists is for the caller
    to check. *)
Fixpoint walk (w : world) (cur : cpath) (names : list string) : errno + cpath :=
  match names with
  | [] => inr cur
  | c :: rest =>
      match search_dir w cur with
      | Some e => inl e
      | None =>
          if is_dot c then walk w cur rest
          else if is_dotdot c then walk w (removelast cur) rest
          else walk w (cur ++ [c]) rest
      end
  end.

Definition start (w : world) (p : string) : cpath :=
  if Str.starts_with_slash p then [] else cwd w.

(** Resolve the path of an existing file: [stat], [chmod]. A path that
    ends with a slash has to name a directory. *)
Definition namei (w : world) (p : string) : errno + (cpath * inode) :=
  if Str.is_empty p then inl ENOENT
  else match walk w (start w p) (comps p) with
       | inl e => inl e
       | inr c =>
           match files w !! c with
           | None => inl ENOENT
           | Some i =>
               if Str.ends_with_slash p && negb (is_dir i) then inl ENOTDIR
               else inr (c, i)
           end
       end.

Fixpoint unsnoc (l : list string) : option (list string * string) :=
  match l with
  | [] => None
  | x :: xs =>
      match unsnoc xs with
      | None => Some ([], x)
      | Some (pre, z) => Some (x :: pre, z)
      end
  end.

(** Resolve the path of a file to create: the directory it goes in, which
    the process must be able to search, and its name there. [None] stands
    for a path made of slashes only: the root directory. *)
Definition namei_parent (w : world) (p : string)
  : errno + option (cpath * string) :=
  if Str.is_empty p then inl ENOENT
  else match unsnoc (comps p) with
       | None => inr None
       | Some (pre, leaf) =>
           match walk w (start w p) pre with
           | inl e => inl e
           | inr d =>
               match search_dir w d with
               | Some e => inl e
               | None => inr (Some (d, leaf))
               end
           end
       end.

(** [stat(p)] succeeds. *)
Definition path_exists (w : world) (p : string) : bool :=
  match namei w p with inr _ => true | inl _ => false end.

Definition set_files (w : world) (m : gmap cpath inode) : world :=
  {| files := m; cwd := cwd w; euid := euid w; egid := egid w; umask := umask w;
     fsize_limit := fsize_limit w; depth_left := depth_left w |}.

(** The inode of a file created in the directory [parent]: the mode asked
    for less the umask, the user of the process, and its group, unless the
    directory has its set-group-ID bit set: then the group is that of the
    directory, and a new directory has the bit set in turn. *)
Definition new_inode (w : world) (parent : inode) (k : kind) (mode : Z) : inode :=
  let inherits := Z.testbit (i_mode parent) 10 in
  {| i_kind := k;
     i_mode := Z.lor (Z.ldiff mode (umask w))
                     (match k with
                      | Dir => if inherits then S_ISGID else 0
                      | Reg _ => 0
                      end);
     i_uid := euid w;
     i_gid := if inherits then i_gid parent else egid w |}.

(** A new file [leaf] in the directory [d], which the process has to be
    allowed to write. *)
Definition create (w : world) (d : cpath) (leaf : string) (k : kind) (mode : Z)
  : errno + world :=
  match files w !! d with
  | Some parent =>
      if may w parent W_OK
      then inr (set_files w (<[d ++ [leaf] := new_inode w parent k mode]> (files w)))
      else inl EACCES
  | None => inl ENOENT
  end.

(** [mkdir(p, mode)] *)
Definition sys_mkdir (p : string) (mode : Z) (w : world) : errno + world :=
  match namei_parent w p with
  | inl e => inl e
  | inr None => inl EEXIST
  | inr (Some (d, leaf)) =>
      if is_dot leaf || is_dotdot leaf then inl EEXIST
      else match files w !! (d ++ [leaf]) with
           | Some _ => inl EEXIST
           | None => create w d leaf Dir mode
           end
  end.

(** What writing to a file, or cutting it, does to its mode: unless the
    process is privileged, the set-user-ID bit is cleared, and the
    set-group-ID bit where the group may execute the file. *)
Definition drop_privileges (w : world) (mode : Z) : Z :=
  if bool_decide (euid w = 0%nat) then mode
  else Z.ldiff mode (if Z.testbit mode 3 then Z.lor S_ISUID S_ISGID else S_ISUID).

(** The regular file [i] cut to nothing, and with other data. *)
Definition truncated (w : world) (i : inode) : inode :=
  {| i_kind := Reg EmptyString; i_mode := drop_privileges w (i_mode i);
     i_uid := i_uid i; i_gid := i_gid i |}.

Definition with_data (i : inode) (data : string) : inode :=
  {| i_kind := Reg data; i_mode := i_mode i; i_uid := i_uid i; i_gid := i_gid i |}.

(** [open(p, O_WRONLY|O_CREAT|O_TRUNC, 0o666)]: the file is created empty,
    or emptied if it exists. The result says where the open file is. *)
Definition sys_open_w (p : string) (w : world) : errno + (cpath * world) :=
  match namei_parent w p with
  | inl e => inl e
  | inr None => inl EISDIR
  | inr (Some (d, leaf)) =>
      if Str.ends_with_slash p || is_dot leaf || is_dotdot leaf then inl EISDIR
      else match files w !! (d ++ [leaf]) with
           | Some i =>
               match i_kind i with
               | Dir => inl EISDIR
               | Reg _ =>
                   if may w i W_OK
                   then inr (d ++ [leaf],
                             set_files w (<[d ++ [leaf] := truncated w i]> (files w)))
                   else inl EACCES
               end
           | None =>
               match create w d leaf (Reg EmptyString) mode_0666 with
               | inl e => inl e
               | inr w' => inr (d ++ [leaf], w')
               end
           end
  end.

(** [write] of [data] to the empty file open at [c], up to [close]. At the
    file size limit the file keeps what fitted, and the call fails; the
    world it leaves comes with the error. The mode has no set-ID bit left
    to clear: [open] cleared them. *)
Definition sys_write (c : cpath) (data : string) (w : world) : errno * world + world :=
  match files w !! c with
  | None => inl (EBADF, w)
  | Some i =>
      let holding d := set_files w (<[c := with_data i d]> (files w)) in
      match fsize_limit w with
      | None => inr (holding data)
      | Some n =>
          if bool_decide (String.length data <= n)%nat then inr (holding data)
          else inl (EFBIG, holding (Str.take n data))
      end
  end.

(** [chmod(p, mode)]: for the owner and the superuser only. *)
Definition sys_chmod (p : string) (mode : Z) (w : world) : errno + world :=
  match namei w p with
  | inl e => inl e
  | inr (c, i) =>
      if bool_decide (euid w = 0%nat) || bool_decide (euid w = i_uid i)
      then inr (set_files w
             (<[c := {| i_kind := i_kind i; i_mode := Z.land mode 4095;
                        i_uid := i_uid i; i_gid := i_gid i |}]> (files w)))
      else inl EPERM
  end.

End Posix.

(** ** Python: exceptions and the interpreter's monad *)

Import Posix.

Inductive exn :=
| EnvironmentError (e : errno)   (* IOError and OSError, with their errno *)
| SystemExit (code : Z)
| RuntimeError.                  (* maximum recursion depth exceeded *)

Inductive result (A : Type) :=
| Return (a : A) (w : world)
| Raise (e : exn) (w : world).
Arguments Return {A} a w.
Arguments Raise {A} e w.

Definition Py (A : Type) : Type := world -> result A.

Definition ret {A} (a : A) : Py A := fun w => Return a w.
Definition raise {A} (e : exn) : Py A := fun w => Raise e w.
Definition bind {A B} (m : Py A) (k : A -> Py B) : Py B :=
  fun w => match m w with
           | Return a w' => k a w'
           | Raise e w' => Raise e w'
           end.

Notation "'let*' x ':=' m 'in' k" := (bind m (fun x => k))
  (at level 10, x name, m at level 100, k at level 200).

(** A system call made from Python: an error becomes an exception. *)
Definition syscall (f : world -> errno + world) : Py unit :=
  fun w => match f w with
           | inr w' => Return tt w'
           | inl e => Raise (EnvironmentError e) w
           end.

(** ** The [os] and [stat] modules *)

Module stat.
Definition S_IRUSR : Z := 256.   (* 0o400 *)
Definition S_IWUSR : Z := 128.   (* 0o200 *)
Definition S_IXUSR : Z := 64.    (* 0o100 *)
Definition S_IRGRP : Z := 32.    (* 0o040 *)
Definition S_IWGRP : Z := 16.    (* 0o020 *)
Definition S_IXGRP : Z := 8.     (* 0o010 *)
Definition S_IROTH : Z := 4.     (* 0o004 *)
Definition S_IWOTH : Z := 2.     (* 0o002 *)
Definition S_IXOTH : Z := 1.     (* 0o001 *)
End stat.

Module os.

Module path.

Definition curdir : string := ".".

(** [posixpath.split]:
<<
    i = p.rfind('/') + 1
    head, tail = p[:i], p[i:]
    if head and head != '/'*len(head):
        head = head.rstrip('/')
    return head, tail
>> *)
Definition split (p : string) : string * string :=
  let '(head, tail) := Str.rpartition_slash p in
  let head :=
    if negb (Str.is_empty head) && negb (Str.all_slashes head)
    then Str.rstrip_slash head else head in
  (head, tail).

(** [posixpath.dirname]: the same computation, keeping the head only. *)
Definition dirname (p : string) : string :=
  let '(head, _) := Str.rpartition_slash p in
  if negb (Str.is_empty head) && negb (Str.all_slashes head)
  then Str.rstrip_slash head else head.

(** [os.path.exists]: [os.stat] did not fail. *)
Definition exists_ (p : string) : Py bool :=
  fun w => Return (path_exists w p) w.

Definition isdir (w : world) (p : string) : bool :=
  match namei w p with
  | inr (_, i) => is_dir i
  | inl _ => false
  end.

End path.

Definition mkdir (p : string) (mode : Z) : Py unit := syscall (sys_mkdir p mode).

Definition chmod (p : string) (mode : Z) : Py unit := syscall (sys_chmod p mode).

(** [os.makedirs(name)], with [mode] at its default 0o777:
<<
    head, tail = path.split(name)
    if not tail:
        head, tail = path.split(head)
    if head and tail and not path.exists(head):
        try:
            makedirs(head, mode)
        except OSError, e:
            # be happy if someone already created the path
            if e.errno != errno.EEXIST:
                raise
        if tail == curdir:           # xxx/newdir/. exists if xxx/newdir exists
            return
    mkdir(name, mode)
>>
    [makedirs_body] is this text, with the function it calls for
    [makedirs(head, mode)] as a parameter. *)
Definition makedirs_body (makedirs : string -> Py unit) (name : string) : Py unit :=
  let '(head, tail) := path.split name in
  let '(head, tail) := if Str.is_empty tail then path.split head else (head, tail) in
  let* there := path.exists_ head in
  if negb (Str.is_empty head) && negb (Str.is_empty tail) && negb there then
    fun w =>
      let continue w1 :=
        if bool_decide (tail = path.curdir) then Return tt w1
        else mkdir name mode_0777 w1 in
      match makedirs head w with
      | Return _ w1 => continue w1
      | Raise (EnvironmentError EEXIST) w1 => continue w1
      | Raise e w1 => Raise e w1
      end
  else mkdir name mode_0777.

(** The recursion is on a proper prefix of [name], one call for each
    directory to create. [depth] is the number of calls that may still
    nest: the interpreter raises [RuntimeError] (maximum recursion depth
    exceeded) for the call after the last one, before anything is created.
    [makedirs] starts with the room the interpreter has left. *)
Fixpoint makedirs_rec (depth : nat) (name : string) : Py unit :=
  makedirs_body
    (match depth with
     | O => fun _ => raise RuntimeError
     | S depth' => makedirs_rec depth'
     end) name.

Definition makedirs (name : string) : Py unit :=
  fun w => makedirs_rec (depth_left w) name w.

End os.

Module sys.
(** [sys.exit(None)]: exit status zero. *)
Definition exit (status : option Z) : Py unit :=
  raise (SystemExit (default 0 status)).
End sys.

(** [open(p, 'w')]: the file object is the place of the open file. *)
Definition open_w (p : string) : Py cpath :=
  fun w => match sys_open_w p w with
           | inr (file, w') => Return file w'
           | inl e => Raise (EnvironmentError e) w
           end.

(** [file.write(data)], and the [close] at the end of the [with] block,
    where the data reaches the file. *)
Definition file_write (file : cpath) (data : string) : Py unit :=
  fun w => match sys_write file data w with
           | inr w' => Return tt w'
           | inl (e, w') => Raise (EnvironmentError e) w'
           end.

(** [with open(p, 'w') as file: file.write(data)] *)
Definition open_w_write (p : string) (data : string) : Py unit :=
  let* file := open_w p in
  file_write file data.

(** ** argparse, as configured by [main]

    The command line is taken as [argparse] reads it: a sequence of option
    occurrences and of stray arguments. [Opt o (Some v)] is the option
    string [o] with its argument [v] (written [o v] or [o=v]); [Opt o None]
    is [o] with no argument to take; [Positional s] is an argument string
    that belongs to no option. How argument strings are cut into
    occurrences (abbreviated option strings, [--]) is left to the library. *)

Module argparse.

Inductive arg :=
| Opt (option_string : string) (argument : option string)
| Positional (s : string).

Inductive action := help | store_out | append_test.

Record Argument := {
  option_strings : list string;
  act : action;
  help_text : string;
  required : bool }.

Definition description : string :=
  "Generate a script that invokes multiple dart_test targets".

Global Instance action_eq_dec : EqDecision action.
Proof. solve_decision. Defined.

(** The parser [main] builds: [ArgumentParser(description=...)] adds
    [-h]/[--help]; the two [add_argument] calls add the rest. *)
Definition parser : list Argument :=
  [ {| option_strings := ["-h"; "--help"]; act := help;
       help_text := "show this help message and exit";
       required := false |};
    {| option_strings := ["--out"]; act := store_out;
       help_text := "Path to the invocation file to generate";
       required := true |};
    {| option_strings := ["--test"]; act := append_test;
       help_text := "Adds a target to the list of test executables";
       required := true |} ].

Record Namespace := { out : string; test : list string }.

(** The namespace while parsing: attributes start as [None]. *)
Record parsing := {
  ns_out : option string;
  ns_test : option (list string);
  seen_actions : list action;
  extras : list string }.

Definition initial : parsing :=
  {| ns_out := None; ns_test := None; seen_actions := []; extras := [] |}.

Inductive parsed :=
| Parsed (args : Namespace)
| Usage (message : string)      (* parser.error: usage on stderr, exit status 2 *)
| Help.                         (* the help action: help on stdout, exit status 0 *)

Definition lookup_option (o : string) : option Argument :=
  List.find (fun a => bool_decide (o ∈ option_strings a)) parser.

Definition add_extras (l : list string) (st : parsing) : parsing :=
  {| ns_out := ns_out st; ns_test := ns_test st;
     seen_actions := seen_actions st; extras := extras st ++ l |}.

(** [store]: [setattr(namespace, 'out', v)]. *)
Definition do_store (v : string) (st : parsing) : parsing :=
  {| ns_out := Some v; ns_test := ns_test st;
     seen_actions := store_out :: seen_actions st; extras := extras st |}.

(** [append]: [items = copy(getattr(namespace, 'test') or []);
    items.append(v); setattr(namespace, 'test', items)]. *)
Definition do_append (v : string) (st : parsing) : parsing :=
  {| ns_out := ns_out st; ns_test := Some (default [] (ns_test st) ++ [v]);
     seen_actions := append_test :: seen_actions st; extras := extras st |}.

(** After the last argument: required options, then leftovers. Once both
    required actions were seen both attributes are set, so that the last
    case is not reached. *)
Definition finish (st : parsing) : parsed :=
  match List.find (fun a => required a && negb (bool_decide (act a ∈ seen_actions st))) parser with
  | Some a => Usage ("argument " +:+ Str.join "/" (option_strings a) +:+ " is required")
  | None =>
      match extras st with
      | _ :: _ => Usage ("unrecognized arguments: " +:+ Str.join " " (extras st))
      | [] =>
          match ns_out st, ns_test st with
          | Some o, Some t => Parsed {| out := o; test := t |}
          | _, _ => Usage "the following arguments are required"
          end
      end
  end.

(** Arguments are consumed from left to right; the help action and an
    option that lacks its argument end the parse where they stand. *)
Fixpoint consume (args : list arg) (st : parsing) : parsed :=
  match args with
  | [] => finish st
  | Positional s :: rest => consume rest (add_extras [s] st)
  | Opt o v :: rest =>
      match lookup_option o with
      | None => consume rest (add_extras (o :: option_list v) st)
      | Some a =>
          match act a, v with
          | help, None => Help
          | help, Some v => Usage ("argument -h/--help: ignored explicit argument " +:+ v)
          | _, None => Usage ("argument " +:+ o +:+ ": expected one argument")
          | store_out, Some v => consume rest (do_store v st)
          | append_test, Some v => consume rest (do_append v st)
          end
      end
  end.

Definition parse (argv : list arg) : parsed := consume argv initial.

(** [parser.parse_args()]: [parser.error] and the help action leave through
    [SystemExit]. *)
Definition parse_args (argv : list arg) : Py Namespace :=
  match parse argv with
  | Parsed args => ret args
  | Usage _ => raise (SystemExit 2)
  | Help => raise (SystemExit 0)
  end.

End argparse.

(** ** The generator *)

Import argparse.

Definition permissions : Z :=
  Z.lor (Z.lor (Z.lor (Z.lor (Z.lor (Z.lor
    stat.S_IRUSR stat.S_IWUSR) stat.S_IXUSR)
    stat.S_IRGRP) stat.S_IWGRP) stat.S_IXGRP)
    stat.S_IROTH.

Definition shebang : string := "#!/bin/sh" +:+ Str.nl +:+ Str.nl.

(** [script = '#!/bin/sh\n\n'] and the loop over [args.test]. *)
Definition build_script (tests : list string) : string :=
  fold_left (fun script test_executable => script +:+ (test_executable +:+ Str.nl))
            tests shebang.

(** [if not os.path.exists(test_dir): os.makedirs(test_dir)] *)
Definition ensure_dir (test_dir : string) : Py unit :=
  let* there := os.path.exists_ test_dir in
  if negb there then os.makedirs test_dir else ret tt.

(** [main] after [parse_args]. *)
Definition generate (args : Namespace) : Py unit :=
  let test_file := out args in
  let test_dir := os.path.dirname test_file in
  let* _ := ensure_dir test_dir in
  let script := build_script (test args) in
  let* _ := open_w_write test_file script in
  os.chmod test_file permissions.

Definition main (argv : list arg) : Py unit :=
  let* args := parse_args argv in
  generate args.

(** [if __name__ == '__main__': sys.exit(main())]; [main] returns [None]. *)
Definition program (argv : list arg) : Py unit :=
  let* _ := main argv in
  sys.exit None.

(** The exit status of the process: that of [SystemExit], 1 for any other
    uncaught exception, 0 when the script runs off its end. *)
Definition exit_status {A} (r : result A) : Z :=
  match r with
  | Return _ _ => 0
  | Raise (SystemExit code) _ => code
  | Raise _ _ => 1
  end.

Definition final_world {A} (r : result A) : world :=
  match r with Return _ w => w | Raise _ w => w end.

(** What [open(p).read()] would give. *)
Definition file_content (w : world) (p : string) : option string :=
  match namei w p with
  | inr (_, i) => match i_kind i with Reg data => Some data | Dir => None end
  | inl _ => None
  end.

Definition file_mode (w : world) (p : string) : option Z :=
  match namei w p with
  | inr (_, i) => Some (i_mode i)
  | inl _ => None
  end.

(** Some execute bit of the mode is set (0o111). *)
Definition executable (mode : Z) : bool := negb (Z.land mode 73 =? 0).

(** The targets given with [--test], in command-line order, and the paths
    given with [--out]. *)
Definition test_flags (argv : list arg) : list string :=
  flat_map (fun a => match a with
                     | Opt o (Some v) => if bool_decide (o = "--test") then [v] else []
                     | _ => []
                     end) argv.

Definition out_flags (argv : list arg) : list string :=
  flat_map (fun a => match a with
                     | Opt o (Some v) => if bool_decide (o = "--out") then [v] else []
                     | _ => []
                     end) argv.

Definition asks_help (argv : list arg) : bool :=
  existsb (fun a => match a with
                    | Opt o _ => bool_decide (o = "-h") || bool_decide (o = "--help")
                    | Positional _ => false
                    end) argv.

(** One line of the script. *)
Definition line (t : string) : string := t +:+ Str.nl.

Definition root_dir : inode := {| i_kind := Dir; i_mode := 493; i_uid := 0; i_gid := 0 |}.
Definition tmp_dir : inode := {| i_kind := Dir; i_mode := 511; i_uid := 0; i_gid := 0 |}.

Definition w0 : world :=
  {| files := <[ ["tmp"] := tmp_dir ]> (<[ [] := root_dir ]> ∅);
     cwd := ["tmp"]; euid := 1000; egid := 1000; umask := 18;
     fsize_limit := None; depth_left := 990 |}.

(** The scenario of the specification. *)
Definition argv0 : list arg :=
  [Opt "--out" (Some "/tmp/build/run_tests.sh"); Opt "--test" (Some "./unit_test");
   Opt "--test" (Some "./integration_test")].

Definition w0_done : world := final_world (main argv0 w0).

(** The same scenario where the output file exists already, with another
    content. *)
Definition old_file : inode :=
  {| i_kind := Reg "echo old"; i_mode := 420; i_uid := 1000; i_gid := 1000 |}.
Definition build_dir : inode :=
  {| i_kind := Dir; i_mode := 493; i_uid := 1000; i_gid := 1000 |}.

Definition w_old : world :=
  {| files := <[ ["tmp"; "build"; "run_tests.sh"] := old_file ]>
              (<[ ["tmp"; "build"] := build_dir ]> (files w0));
     cwd := []; euid := 1000; egid := 1000; umask := 18;
     fsize_limit := None; depth_left := 990 |}.

Definition w_old_done : world := final_world (main argv0 w_old).

(** A shared directory: the script was generated before by another member
    of the group, who owns it; its mode is 0o774. *)
Definition shared_file : inode :=
  {| i_kind := Reg "echo old"; i_mode := 508; i_uid := 1001; i_gid := 1000 |}.

Definition w_shared : world :=
  {| files := <[ ["tmp"; "run.sh"] := shared_file ]> (files w0);
     cwd := ["tmp"]; euid := 1000; egid := 1000; umask := 18;
     fsize_limit := None; depth_left := 990 |}.

Definition argv_shared : list arg :=
  [Opt "--out" (Some "/tmp/run.sh"); Opt "--test" (Some "./unit_test")].

Definition w_shared_written : world := final_world (main argv_shared w_shared).

(** A working directory with a directory [d] and a regular file [f]. *)
Definition w_df : world :=
  {| files := <[ ["tmp"; "d"] := build_dir ]> (<[ ["tmp"; "f"] := old_file ]> (files w0));
     cwd := ["tmp"]; euid := 1000; egid := 1000; umask := 18;
     fsize_limit := None; depth_left := 990 |}.

(** The shared directory where the file of the other member has its
    set-user-ID and set-group-ID bits set: mode 0o6774. *)
Definition setid_file : inode :=
  {| i_kind := Reg "echo old"; i_mode := 3580; i_uid := 1001; i_gid := 1000 |}.

Definition w_setid : world :=
  {| files := <[ ["tmp"; "run.sh"] := setid_file ]> (files w0);
     cwd := ["tmp"]; euid := 1000; egid := 1000; umask := 18;
     fsize_limit := None; depth_left := 990 |}.

(** A directory of group 0 with the set-group-ID bit: mode 0o2777. *)
Definition setgid_dir : inode :=
  {| i_kind := Dir; i_mode := 1535; i_uid := 1000; i_gid := 0 |}.

Definition w_setgid : world :=
  {| files := <[ ["tmp"; "sg"] := setgid_dir ]> (files w0);
     cwd := ["tmp"]; euid := 1000; egid := 1000; umask := 18;
     fsize_limit := None; depth_left := 990 |}.

Definition argv_setgid : list arg :=
  [Opt "--out" (Some "/tmp/sg/a/run.sh"); Opt "--test" (Some "./unit_test")].

(** The superuser, a process that may write five bytes to a file, and an
    interpreter that is one call away from its recursion limit. *)
Definition w_root : world :=
  {| files := files w0; cwd := ["tmp"]; euid := 0; egid := 0; umask := 18;
     fsize_limit := None; depth_left := 990 |}.

Definition w_limit : world :=
  {| files := files w0; cwd := ["tmp"]; euid := 1000; egid := 1000; umask := 18;
     fsize_limit := Some 5%nat; depth_left := 990 |}.

Definition w_deep : world :=
  {| files := files w0; cwd := ["tmp"]; euid := 1000; egid := 1000; umask := 18;
     fsize_limit := None; depth_left := 1 |}.


Definition error_of {A} (r : errno + A) : option errno :=
  match r with inl e => Some e | inr _ => None end.

(** An output path without a directory part. *)
Definition argv_bare : list arg :=
  [Opt "--out" (Some "run_tests.sh"); Opt "--test" (Some "./unit_test")].

(** The same file, named with the directory it is in. *)
Definition argv_dotslash : list arg :=
  [Opt "--out" (Some "./run_tests.sh"); Opt "--test" (Some "./unit_test")].

(** A target given twice, around another one. *)
Definition argv_twice : list arg :=
  [Opt "--test" (Some "b"); Opt "--out" (Some "/tmp/t.sh");
   Opt "--test" (Some "a"); Opt "--test" (Some "b")].

(** ** Relations between worlds *)

(** [m'] keeps every directory of [m] as it is. *)
Definition dirs_kept (m m' : gmap cpath inode) : Prop :=
  forall c i, m !! c = Some i -> is_dir i = true -> m' !! c = Some i.

(** The same process in a filesystem that kept its directories: path
    resolution through [w] works in [w'] as well. *)
Definition extends (w w' : world) : Prop :=
  cwd w' = cwd w /\ euid w' = euid w /\ egid w' = egid w /\ umask w' = umask w
  /\ dirs_kept (files w) (files w').

(** The filesystem is a tree: what holds a name is a directory. *)
Definition tree (w : world) : Prop :=
  forall c x i, files w !! (c ++ [x]) = Some i ->
    exists j, files w !! c = Some j /\ is_dir j = true.

(** ** Further notions: lines, command lines, changes to the filesystem *)

Definition newline : ascii := "010"%char.

(** [c in s] *)
Fixpoint has_char (c : ascii) (s : string) : bool :=
  match s with
  | EmptyString => false
  | String x s' => bool_decide (x = c) || has_char c s'
  end.

(** [s.split(sep)] for a separator of one character. *)
Fixpoint split_on (sep : ascii) (s : string) : list string :=
  match s with
  | EmptyString => [EmptyString]
  | String x s' =>
      if bool_decide (x = sep) then EmptyString :: split_on sep s'
      else match split_on sep s' with
           | y :: ys => String x y :: ys
           | [] => [String x EmptyString]
           end
  end.

(** An occurrence of [--out] or of [--test] with its argument. *)
Definition wellformed (a : arg) : bool :=
  match a with
  | Opt o (Some _) => bool_decide (o = "--out") || bool_decide (o = "--test")
  | _ => false
  end.

(** An occurrence at which the parse ends: the help option, or an option
    of the parser that has no argument to take. *)
Definition halts (a : arg) : bool :=
  match a with
  | Opt o v =>
      match lookup_option o with
      | Some x =>
          match act x, v with
          | help, _ => true
          | _, None => true
          | _, Some _ => false
          end
      | None => false
      end
  | Positional _ => false
  end.

Definition same_process (w w' : world) : Prop :=
  cwd w' = cwd w /\ euid w' = euid w /\ egid w' = egid w /\ umask w' = umask w
  /\ fsize_limit w' = fsize_limit w /\ depth_left w' = depth_left w.

(** At [c] nothing changed from [w] to [w'], or a directory was created
    there, which belongs to the user of the process. *)
Definition same_or_new_dir (w w' : world) (c : cpath) : Prop :=
  files w' !! c = files w !! c
  \/ (files w !! c = None
      /\ exists i, files w' !! c = Some i /\ is_dir i = true /\ i_uid i = euid w).

Definition only_dirs_added (w w' : world) : Prop :=
  same_process w w' /\ forall c, same_or_new_dir w w' c.




(** An output path that names a directory to create, and one that names a
    directory that exists. *)
Definition argv_dot : list arg :=
  [Opt "--out" (Some "/tmp/newdir/."); Opt "--test" (Some "./unit_test")].

Definition argv_dir : list arg :=
  [Opt "--out" (Some "/tmp/d"); Opt "--test" (Some "./unit_test")].

(** Stray arguments and an incomplete command line before [--help]. *)
Definition argv_help_late : list arg :=
  [Positional "stray"; Opt "--bogus" None; Opt "--test" (Some "t"); Opt "--help" None;
   Opt "--out" None].

(** * Properties *)

(** ** The library and the system calls on examples *)

Example dirname_examples :
  os.path.dirname "/tmp/build/run_tests.sh" = "/tmp/build"
  /\ os.path.dirname "run_tests.sh" = EmptyString
  /\ os.path.dirname "/x" = "/"
  /\ os.path.dirname "//x" = "//"
  /\ os.path.dirname "a//b" = "a"
  /\ os.path.dirname "a/b/" = "a/b"
  /\ os.path.dirname "a/../f/./x" = "a/../f/.".
Proof. repeat split. Qed.

Example split_examples :
  os.path.split "a/b" = ("a", "b")
  /\ os.path.split "a/b/" = ("a/b", EmptyString)
  /\ os.path.split "/x" = ("/", "x")
  /\ os.path.split "x" = (EmptyString, "x")
  /\ comps "/a//b/" = ["a"; "b"].
Proof. repeat split. Qed.

(** The errors of [mkdir], [open] and [stat] in a directory that holds the
    directory [d] and the regular file [f], as Linux gives them. *)
Example mkdir_errors :
  map (fun p => error_of (sys_mkdir p mode_0777 w_df))
      [EmptyString; "new/"; "d/."; "d/.."; "nx/."; "nx/y"; "f/y"; "f"; "f/"; "/"; "."]
  = [Some ENOENT; None; Some EEXIST; Some EEXIST; Some ENOENT; Some ENOENT;
     Some ENOTDIR; Some EEXIST; Some EEXIST; Some EEXIST; Some EEXIST].
Proof. vm_compute. reflexivity. Qed.

Example open_errors :
  map (fun p => error_of (sys_open_w p w_df))
      [EmptyString; "d"; "d/"; "nx/"; "f/"; "f//"; "f/x"; "nx/x"; "d/."; "d/.."; ".";
       "d//g"; "f"]
  = [Some ENOENT; Some EISDIR; Some EISDIR; Some EISDIR; Some EISDIR; Some EISDIR;
     Some ENOTDIR; Some ENOENT; Some EISDIR; Some EISDIR; Some EISDIR; None; None].
Proof. vm_compute. reflexivity. Qed.

Example stat_errors :
  map (fun p => error_of (namei w_df p))
      [EmptyString; "f/"; "f/."; "d//"; "nx/.."; "nx"; "f"; "/"]
  = [Some ENOENT; Some ENOTDIR; Some ENOTDIR; None; Some ENOENT; Some ENOENT; None; None].
Proof. vm_compute. reflexivity. Qed.

(** Writing to a file as another user than the superuser clears its
    set-user-ID bit, and its set-group-ID bit if the group may execute it:
    0o4755, 0o2775, 0o2764 and 0o6777 become 0o755, 0o775, 0o2764 and
    0o777. *)
Example drop_privileges_examples :
  map (drop_privileges w0) [2541; 1533; 1524; 3583] = [493; 509; 1524; 511]
  /\ drop_privileges w_root 3583 = 3583
  /\ file_mode w_setid "run.sh" = Some 3580
  /\ file_mode (final_world (open_w_write "run.sh" "new" w_setid)) "run.sh" = Some 508.
Proof. vm_compute. auto. Qed.

(** In a directory with the set-group-ID bit, 0o2777 of group 0, new
    directories are 0o2755 of group 0 under the umask 0o022, and a new file
    is of group 0 as well. *)
Example setgid_examples :
  match main argv_setgid w_setgid with
  | Return _ w' =>
      files w' !! ["tmp"; "sg"; "a"]
      = Some {| i_kind := Dir; i_mode := 1517; i_uid := 1000; i_gid := 0 |}
      /\ files w' !! ["tmp"; "sg"; "a"; "run.sh"]
         = Some {| i_kind := Reg (build_script ["./unit_test"]); i_mode := 508;
                   i_uid := 1000; i_gid := 0 |}
  | Raise _ _ => False
  end.
Proof. vm_compute. auto. Qed.

(** At the file size limit the file keeps what fitted. *)
Example file_size_examples :
  open_w_write "f" "#!/bin/sh" w_limit
  = Raise (EnvironmentError EFBIG)
      (set_files w_limit
         (<[ ["tmp"; "f"] := {| i_kind := Reg "#!/bi"; i_mode := 420;
                                i_uid := 1000; i_gid := 1000 |} ]> (files w_limit)))
  /\ file_content (final_world (open_w_write "f" "#!/b" w_limit)) "f" = Some "#!/b"
  /\ exit_status (open_w_write "f" "#!/bi" w_limit) = 0.
Proof. vm_compute. auto. Qed.

(** [os.makedirs] creates what is missing on the way, and fails on what
    exists already. At the recursion limit it raises before it creates
    anything. *)
Example makedirs_examples :
  os.makedirs "q/r/s" w_df
  = Return tt (set_files w_df
      (<[ ["tmp"; "q"; "r"; "s"] := build_dir ]>
       (<[ ["tmp"; "q"; "r"] := build_dir ]>
        (<[ ["tmp"; "q"] := build_dir ]> (files w_df)))))
  /\ os.makedirs "d" w_df = Raise (EnvironmentError EEXIST) w_df
  /\ os.makedirs "f/x" w_df = Raise (EnvironmentError ENOTDIR) w_df
  /\ os.makedirs EmptyString w_df = Raise (EnvironmentError ENOENT) w_df
  /\ os.makedirs "a/b/c" w_deep = Raise RuntimeError w_deep
  /\ exit_status (os.makedirs "a/b" w_deep) = 0.
Proof. vm_compute. auto 6. Qed.

(** [os.makedirs] may return although its argument names no directory
    afterwards: on the way to [f], a regular file, it creates [a], takes the
    EEXIST of [mkdir] for a success, and returns at the final dot. *)
Example makedirs_dot :
  path_exists w_df "a/../f/." = false
  /\ match os.makedirs "a/../f/." w_df with
     | Return _ w1 =>
         os.path.isdir w1 "a" = true /\ os.path.isdir w1 "a/../f/." = false
     | Raise _ _ => False
     end.
Proof. vm_compute. auto. Qed.

(** ** Strings *)

Lemma str_app_cons (x : ascii) (a b : string) :
  String x a +:+ b = String x (a +:+ b).
Proof. reflexivity. Qed.

Lemma str_app_nil_l (a : string) : EmptyString +:+ a = a.
Proof. reflexivity. Qed.

Lemma str_app_assoc (a b c : string) : (a +:+ b) +:+ c = a +:+ (b +:+ c).
Proof.
  induction a as [|x a IH]; [reflexivity |].
  rewrite !str_app_cons. f_equal. exact IH.
Qed.

Lemma str_app_nil_r (a : string) : a +:+ EmptyString = a.
Proof.
  induction a as [|x a IH]; [reflexivity |].
  rewrite str_app_cons. f_equal. exact IH.
Qed.

Lemma build_script_from (tests : list string) (acc : string) :
  fold_left (fun script test_executable => script +:+ (test_executable +:+ Str.nl)) tests acc
  = acc +:+ Str.concat (map line tests).
Proof.
  revert acc. induction tests as [|t tests IH]; intros acc; simpl.
  - now rewrite str_app_nil_r.
  - rewrite IH. unfold line. now rewrite !str_app_assoc.
Qed.

Lemma build_script_lines (tests : list string) :
  build_script tests = shebang +:+ Str.concat (map line tests).
Proof. apply build_script_from. Qed.

Lemma concat_lines_join (tests : list string) :
  tests <> [] ->
  Str.concat (map line tests) = Str.join Str.nl tests +:+ Str.nl.
Proof.
  induction tests as [|t [|t' tests] IH]; intros Hne; [congruence | |].
  - simpl. unfold line. now rewrite str_app_nil_r.
  - change (Str.concat (map line (t :: t' :: tests)))
      with (line t +:+ Str.concat (map line (t' :: tests))).
    rewrite IH by discriminate.
    change (Str.join Str.nl (t :: t' :: tests))
      with (t +:+ Str.nl +:+ Str.join Str.nl (t' :: tests)).
    unfold line. now rewrite !str_app_assoc.
Qed.

(** ** The parser *)

Lemma lookup_option_spec (o : string) :
  match lookup_option o with
  | Some a =>
      (act a = help /\ (o = "-h" \/ o = "--help"))
      \/ (act a = store_out /\ o = "--out")
      \/ (act a = append_test /\ o = "--test")
  | None => o <> "-h" /\ o <> "--help" /\ o <> "--out" /\ o <> "--test"
  end.
Proof.
  destruct (decide (o = "-h")) as [->|H1]; [vm_compute; auto 6|].
  destruct (decide (o = "--help")) as [->|H2]; [vm_compute; auto 6|].
  destruct (decide (o = "--out")) as [->|H3]; [vm_compute; auto 6|].
  destruct (decide (o = "--test")) as [->|H4]; [vm_compute; auto 6|].
  unfold lookup_option, parser; simpl.
  rewrite !bool_decide_eq_false_2
    by (intros Hin; repeat (apply elem_of_cons in Hin as [?|Hin]; [congruence|]);
        by apply elem_of_nil in Hin).
  simpl. tauto.
Qed.

Ltac option_cases o :=
  let H := fresh "Hlk" in
  let a := fresh "a" in
  let Ha := fresh "Ha" in
  let Ho := fresh "Ho" in
  pose proof (lookup_option_spec o) as H;
  destruct (lookup_option o) as [a|];
  [ destruct H as [[Ha Ho]|[[Ha Ho]|[Ha Ho]]]; rewrite ?Ha in *
  | destruct H as (? & ? & ? & ?) ].

Lemma finish_parsed (st : parsing) (ns : Namespace) :
  finish st = Parsed ns ->
  ns_out st = Some (out ns) /\ ns_test st = Some (test ns) /\ extras st = [].
Proof.
  unfold finish. destruct (List.find _ parser); [discriminate|].
  destruct (extras st); [|discriminate].
  destruct (ns_out st), (ns_test st); try discriminate.
  intros [= <-]. auto.
Qed.

Lemma consume_parsed (args : list arg) (st : parsing) (ns : Namespace) :
  consume args st = Parsed ns ->
  test ns = default [] (ns_test st) ++ test_flags args
  /\ (ns_test st = None -> test_flags args <> [])
  /\ (ns_out st = None -> out_flags args <> [])
  /\ Some (out ns) = from_option Some (ns_out st) (last (out_flags args)).
Proof.
  revert st. induction args as [|a args IH]; intros st H; simpl in H.
  - apply finish_parsed in H as (Ho & Ht & _). rewrite Ho, Ht. simpl.
    rewrite app_nil_r. repeat split; congruence.
  - destruct a as [o v|s].
    + option_cases o.
      * destruct v; discriminate.
      * destruct v as [v|]; [|discriminate]. subst o.
        apply IH in H as (Ht & Hn & Hon & Hout). simpl in *.
        repeat split; auto.
        destruct (out_flags args) as [|x l] eqn:E; [exact Hout|].
        rewrite last_cons_cons.
        destruct (last (x :: l)) eqn:El; [exact Hout|].
        now apply last_None in El.
      * destruct v as [v|]; [|discriminate]. subst o.
        apply IH in H as (Ht & Hn & Hon & Hout). simpl in *.
        repeat split; auto.
        rewrite Ht. now rewrite <- app_assoc.
      * apply IH in H as (Ht & Hn & Hon & Hout). simpl in *.
        destruct v as [v|]; simpl;
          rewrite ?bool_decide_eq_false_2 by assumption; simpl; auto.
    + apply IH in H as (Ht & Hn & Hon & Hout). simpl in *. auto.
Qed.

Lemma parse_parsed (argv : list arg) (ns : Namespace) :
  parse argv = Parsed ns ->
  test ns = test_flags argv /\ test_flags argv <> [] /\ out_flags argv <> []
  /\ last (out_flags argv) = Some (out ns).
Proof.
  intros H. apply consume_parsed in H as (Ht & Hn & Hon & Hout). simpl in *.
  repeat split; auto.
  destruct (last (out_flags argv)) eqn:E; simpl in Hout; [congruence|].
  apply last_None in E. exfalso. now apply Hon.
Qed.

Lemma consume_help (args : list arg) (st : parsing) :
  consume args st = Help -> asks_help args = true.
Proof.
  revert st. induction args as [|a args IH]; intros st H; simpl in H.
  - unfold finish in H. destruct (List.find _ parser); [discriminate|].
    destruct (extras st); [|discriminate].
    destruct (ns_out st), (ns_test st); discriminate.
  - destruct a as [o v|s]; simpl.
    + option_cases o.
      * destruct Ho as [-> | ->]; reflexivity.
      * destruct v; [|discriminate]. rewrite (IH _ H). apply orb_true_r.
      * destruct v; [|discriminate]. rewrite (IH _ H). apply orb_true_r.
      * rewrite (IH _ H). apply orb_true_r.
    + eauto.
Qed.

Lemma parse_args_inv (argv : list arg) (w w' : world) (ns : Namespace) :
  parse_args argv w = Return ns w' -> parse argv = Parsed ns /\ w' = w.
Proof.
  unfold parse_args. destruct (parse argv); unfold ret, raise; intros [=]; subst; auto.
Qed.

Lemma main_inv (argv : list arg) (w w' : world) :
  main argv w = Return tt w' ->
  exists ns, parse argv = Parsed ns /\ generate ns w = Return tt w'.
Proof.
  unfold main, bind. destruct (parse_args argv w) as [ns w1|] eqn:E; [|discriminate].
  apply parse_args_inv in E as [E ->]. eauto.
Qed.

(** ** Path strings *)

Lemma is_slash_true (c : ascii) : Str.is_slash c = true -> c = Str.slash.
Proof. unfold Str.is_slash. now intros H%bool_decide_eq_true. Qed.

Lemma rpartition_spec (p h t : string) :
  Str.rpartition_slash p = (h, t) ->
  p = h +:+ t /\ Str.has_slash t = false
  /\ (h = EmptyString \/ exists x, h = x +:+ String Str.slash EmptyString).
Proof.
  revert h t. induction p as [|c p IH]; intros h t H; simpl in H.
  - injection H as <- <-. auto.
  - destruct (Str.rpartition_slash p) as [h' t'].
    destruct (IH h' t' eq_refl) as (Hp & Ht & Hh).
    destruct h' as [|c' h'].
    + destruct (Str.is_slash c) eqn:Ec; injection H as <- <-.
      * apply is_slash_true in Ec as ->. rewrite Hp.
        repeat split; auto. right. now exists EmptyString.
      * rewrite Hp. repeat split; auto. simpl. now rewrite Ec, Ht.
    + injection H as <- <-. rewrite Hp. repeat split; auto. right.
      destruct Hh as [Hh|[x Hx]]; [discriminate|].
      exists (String c x). rewrite str_app_cons. now rewrite <- Hx.
Qed.

Lemma rpartition_head (c : ascii) (p h t : string) :
  Str.rpartition_slash (String c p) = (h, t) ->
  h = EmptyString \/ exists h', h = String c h'.
Proof.
  simpl. destruct (Str.rpartition_slash p) as [[|c' h'] t'].
  - destruct (Str.is_slash c); intros [= <- <-]; eauto.
  - intros [= <- <-]; eauto.
Qed.

Lemma rpartition_noslash (p : string) :
  Str.has_slash p = false -> Str.rpartition_slash p = (EmptyString, p).
Proof.
  induction p as [|c p IH]; simpl; [reflexivity|].
  intros [Hc Hp]%orb_false_elim. now rewrite (IH Hp), Hc.
Qed.

Lemma rstrip_head (c : ascii) (s : string) :
  Str.rstrip_slash (String c s) = EmptyString
  \/ exists r, Str.rstrip_slash (String c s) = String c r.
Proof.
  simpl. destruct (Str.rstrip_slash s); [destruct (Str.is_slash c)|]; eauto.
Qed.

Lemma rstrip_spec (s : string) :
  exists z, Str.all_slashes z = true /\ s = Str.rstrip_slash s +:+ z.
Proof.
  induction s as [|c s (z & Hz & Hs)]; [now exists EmptyString|].
  simpl. destruct (Str.rstrip_slash s) as [|c' r] eqn:Er.
  - rewrite str_app_nil_l in Hs. subst z.
    destruct (Str.is_slash c) eqn:Ec.
    + exists (String c s). simpl. now rewrite Ec, Hz.
    + exists s. split; [assumption | reflexivity].
  - exists z. split; [assumption|]. rewrite str_app_cons. now rewrite <- Hs.
Qed.

Lemma split_slash_cons (s : string) : exists a l, Str.split_slash s = a :: l.
Proof.
  induction s as [|c s (a & l & E)]; simpl; [eauto|].
  destruct (Str.is_slash c); [eauto|]. rewrite E. eauto.
Qed.

Lemma split_slash_app (x y : string) :
  Str.split_slash (x +:+ String Str.slash y) = Str.split_slash x ++ Str.split_slash y.
Proof.
  induction x as [|c x IH]; [reflexivity|].
  rewrite str_app_cons. simpl. rewrite IH.
  destruct (Str.is_slash c); [reflexivity|].
  destruct (split_slash_cons x) as (a & l & ->). reflexivity.
Qed.

Lemma split_slash_noslash (t : string) :
  Str.has_slash t = false -> Str.split_slash t = [t].
Proof.
  induction t as [|c t IH]; simpl; [reflexivity|].
  intros [Hc Ht]%orb_false_elim. now rewrite Hc, (IH Ht).
Qed.

Lemma comps_app (x y : string) :
  comps (x +:+ String Str.slash y) = comps x ++ comps y.
Proof. unfold comps. rewrite split_slash_app. apply List.filter_app. Qed.

Lemma comps_all_slashes (z : string) : Str.all_slashes z = true -> comps z = [].
Proof.
  induction z as [|c z IH]; [reflexivity|]. simpl.
  intros [Hc Hz]%andb_prop. unfold comps in *. simpl. rewrite Hc. simpl. auto.
Qed.

Lemma comps_app_slashes (r z : string) :
  Str.all_slashes z = true -> comps (r +:+ z) = comps r.
Proof.
  destruct z as [|c z]; [now rewrite str_app_nil_r|]. simpl.
  intros [Hc Hz]%andb_prop. apply is_slash_true in Hc as ->.
  rewrite comps_app, (comps_all_slashes z Hz). apply app_nil_r.
Qed.

Lemma comps_rstrip (s : string) : comps (Str.rstrip_slash s) = comps s.
Proof.
  destruct (rstrip_spec s) as (z & Hz & Hs).
  rewrite Hs at 2. now rewrite comps_app_slashes.
Qed.

Lemma ends_with_slash_app (x : string) :
  Str.ends_with_slash (x +:+ String Str.slash EmptyString) = true.
Proof.
  induction x as [|c x IH]; [reflexivity|].
  rewrite str_app_cons. simpl.
  destruct (x +:+ String Str.slash EmptyString) eqn:E; [|exact IH].
  destruct x; discriminate.
Qed.

Lemma dirname_noslash (p : string) :
  Str.has_slash p = false -> os.path.dirname p = EmptyString.
Proof. intros H. unfold os.path.dirname. now rewrite rpartition_noslash. Qed.

Lemma dirname_comps (p : string) :
  os.path.dirname p <> EmptyString -> Str.ends_with_slash p = false ->
  exists t, comps p = comps (os.path.dirname p) ++ [t].
Proof.
  unfold os.path.dirname.
  destruct (Str.rpartition_slash p) as [h t] eqn:E.
  destruct (rpartition_spec _ _ _ E) as (Hp & Ht & Hh). intros Hd He.
  destruct Hh as [->|[x ->]]; [now destruct Hd|].
  rewrite str_app_assoc, str_app_cons, str_app_nil_l in Hp.
  assert (Hne : t <> EmptyString).
  { intros ->. rewrite Hp in He. now rewrite ends_with_slash_app in He. }
  exists t. rewrite Hp at 1. rewrite comps_app.
  assert (Hc : comps (x +:+ String Str.slash EmptyString) = comps x).
  { rewrite comps_app. apply app_nil_r. }
  f_equal.
  - destruct (_ && _); [rewrite comps_rstrip|]; now rewrite Hc.
  - unfold comps. rewrite (split_slash_noslash t Ht). simpl.
    destruct t; [congruence | reflexivity].
Qed.

Lemma dirname_starts (p : string) :
  os.path.dirname p <> EmptyString ->
  Str.starts_with_slash (os.path.dirname p) = Str.starts_with_slash p.
Proof.
  unfold os.path.dirname. destruct p as [|c p]; [now intros []|].
  destruct (Str.rpartition_slash (String c p)) as [h t] eqn:E.
  destruct (rpartition_head _ _ _ _ E) as [->|[h' ->]]; [now intros []|].
  destruct (_ && _); [|reflexivity].
  destruct (rstrip_head c h') as [->|[r ->]]; [now intros []|reflexivity].
Qed.

(** ** Path resolution *)

Lemma unsnoc_spec (l pre : list string) (z : string) :
  unsnoc l = Some (pre, z) -> l = pre ++ [z].
Proof.
  revert pre z. induction l as [|x l IH]; intros pre z; simpl; [discriminate|].
  destruct (unsnoc l) as [[pre' z']|] eqn:E.
  - intros [= <- <-]. simpl. f_equal. now apply IH.
  - intros [= <- <-]. destruct l as [|y l]; [reflexivity|].
    simpl in E. destruct (unsnoc l) as [[? ?]|]; discriminate.
Qed.

Lemma walk_app (w : world) (cur : cpath) (l1 l2 : list string) :
  walk w cur (l1 ++ l2)
  = match walk w cur l1 with
    | inl e => inl e
    | inr d => walk w d l2
    end.
Proof.
  revert cur. induction l1 as [|c l1 IH]; intros cur; simpl; [reflexivity|].
  destruct (search_dir w cur); [reflexivity|].
  destruct (is_dot c); [apply IH|]. destruct (is_dotdot c); apply IH.
Qed.

Lemma extends_refl (w : world) : extends w w.
Proof. unfold extends, dirs_kept. auto. Qed.

Lemma extends_trans (w1 w2 w3 : world) :
  extends w1 w2 -> extends w2 w3 -> extends w1 w3.
Proof.
  unfold extends, dirs_kept.
  intros (? & ? & ? & ? & H12) (? & ? & ? & ? & H23).
  repeat split; try congruence. eauto.
Qed.

Lemma may_extends (w w' : world) (i : inode) (a : access) :
  extends w w' -> may w' i a = may w i a.
Proof. intros (_ & Hu & Hg & _). unfold may. now rewrite Hu, Hg. Qed.

Lemma search_dir_None (w : world) (c : cpath) :
  search_dir w c = None <->
  exists i, files w !! c = Some i /\ is_dir i = true /\ may w i X_OK = true.
Proof.
  unfold search_dir. split.
  - destruct (files w !! c) as [i|]; [|discriminate].
    destruct (is_dir i) eqn:Ed; [|discriminate].
    destruct (may w i X_OK) eqn:Em; [|discriminate]. eauto.
  - intros (i & -> & -> & ->). reflexivity.
Qed.

Lemma search_dir_extends (w w' : world) (c : cpath) :
  extends w w' -> search_dir w c = None -> search_dir w' c = None.
Proof.
  intros He (i & Hi & Hd & Hm)%search_dir_None. apply search_dir_None.
  exists i. rewrite (may_extends _ _ _ _ He).
  destruct He as (_ & _ & _ & _ & Hk). auto.
Qed.

Lemma walk_extends (w w' : world) (cur d : cpath) (l : list string) :
  extends w w' -> walk w cur l = inr d -> walk w' cur l = inr d.
Proof.
  intros He. revert cur. induction l as [|c l IH]; intros cur; simpl; [auto|].
  destruct (search_dir w cur) eqn:Es; [discriminate|].
  rewrite (search_dir_extends _ _ _ He Es).
  destruct (is_dot c); [apply IH|]. destruct (is_dotdot c); apply IH.
Qed.

Lemma start_extends (w w' : world) (p : string) :
  extends w w' -> start w' p = start w p.
Proof. intros (Hc & _). unfold start. now rewrite Hc. Qed.

Lemma namei_parent_extends (w w' : world) (p : string) (d : cpath) (leaf : string) :
  extends w w' ->
  namei_parent w p = inr (Some (d, leaf)) ->
  namei_parent w' p = inr (Some (d, leaf)).
Proof.
  intros He. unfold namei_parent. destruct (Str.is_empty p); [discriminate|].
  destruct (unsnoc (comps p)) as [[pre z]|]; [|discriminate].
  rewrite (start_extends _ _ _ He).
  destruct (walk w (start w p) pre) as [|d'] eqn:Ew; [discriminate|].
  rewrite (walk_extends _ _ _ _ _ He Ew).
  destruct (search_dir w d') eqn:Es; [discriminate|].
  now rewrite (search_dir_extends _ _ _ He Es).
Qed.

Lemma namei_dir_extends (w w' : world) (p : string) (c : cpath) (i : inode) :
  extends w w' -> namei w p = inr (c, i) -> is_dir i = true ->
  namei w' p = inr (c, i).
Proof.
  intros He. unfold namei. destruct (Str.is_empty p); [discriminate|].
  rewrite (start_extends _ _ _ He).
  destruct (walk w (start w p) (comps p)) as [|c'] eqn:Ew; [discriminate|].
  rewrite (walk_extends _ _ _ _ _ He Ew).
  destruct (files w !! c') as [i'|] eqn:Ei; [|discriminate].
  destruct (_ && _) eqn:Et; [discriminate|]. intros [= <- <-] Hd.
  destruct He as (_ & _ & _ & _ & Hk). rewrite (Hk _ _ Ei Hd).
  now rewrite Hd, andb_false_r.
Qed.

Lemma extends_set (w : world) (c : cpath) (j : inode) :
  (forall i, files w !! c = Some i -> is_dir i = false) ->
  extends w (set_files w (<[c := j]> (files w))).
Proof.
  intros Hc. unfold extends, dirs_kept. simpl. repeat split; auto.
  intros c' i Hi Hd. destruct (decide (c = c')) as [->|Hne].
  - rewrite (Hc _ Hi) in Hd. discriminate.
  - now rewrite lookup_insert_ne.
Qed.

(** The file named by [p] once it is in place at the spot [namei_parent]
    found for it. *)
Lemma namei_placed (w w' : world) (p : string) (d : cpath) (leaf : string) (j : inode) :
  namei_parent w p = inr (Some (d, leaf)) ->
  Str.ends_with_slash p = false -> is_dot leaf = false -> is_dotdot leaf = false ->
  extends w w' -> files w' !! (d ++ [leaf]) = Some j ->
  namei w' p = inr (d ++ [leaf], j).
Proof.
  intros Hp Hs Hdot Hdd He Hj.
  pose proof (namei_parent_extends _ _ _ _ _ He Hp) as Hp'.
  unfold namei_parent in Hp'. unfold namei.
  destruct (Str.is_empty p); [discriminate|].
  destruct (unsnoc (comps p)) as [[pre z]|] eqn:Eu; [|discriminate].
  apply unsnoc_spec in Eu. rewrite Eu, walk_app.
  destruct (walk w' (start w' p) pre) as [|d'] eqn:Ew; [discriminate|].
  destruct (search_dir w' d') eqn:Es; [discriminate|].
  injection Hp' as -> ->. simpl. rewrite Es, Hdot, Hdd, Hj, Hs. reflexivity.
Qed.

Lemma namei_ends_dir (w : world) (p : string) (c : cpath) (i : inode) :
  namei w p = inr (c, i) ->
  files w !! c = Some i /\ (Str.ends_with_slash p = true -> is_dir i = true).
Proof.
  unfold namei. destruct (Str.is_empty p); [discriminate|].
  destruct (walk w (start w p) (comps p)) as [|c']; [discriminate|].
  destruct (files w !! c') as [i'|] eqn:Ei; [|discriminate].
  destruct (Str.ends_with_slash p), (is_dir i') eqn:Ed; simpl;
    try discriminate; intros [= <- <-]; split; auto; congruence.
Qed.

(** Replacing a file that is not a directory leaves its name in place. *)
Lemma namei_replaced (w : world) (p : string) (c : cpath) (i j : inode) :
  namei w p = inr (c, i) -> is_dir i = false ->
  namei (set_files w (<[c := j]> (files w))) p = inr (c, j).
Proof.
  intros Hn Hd. destruct (namei_ends_dir _ _ _ _ Hn) as [Hi Hs].
  assert (He : extends w (set_files w (<[c := j]> (files w)))).
  { apply extends_set. intros i' Hi'. congruence. }
  revert Hn. unfold namei. destruct (Str.is_empty p); [discriminate|].
  rewrite (start_extends _ _ _ He).
  destruct (walk w (start w p) (comps p)) as [|c'] eqn:Ew; [discriminate|].
  rewrite (walk_extends _ _ _ _ _ He Ew).
  destruct (files w !! c') as [i'|] eqn:Ei; [|discriminate].
  destruct (_ && _); [discriminate|]. intros [= <- <-]. simpl.
  rewrite lookup_insert_eq.
  destruct (Str.ends_with_slash p); [|reflexivity].
  rewrite Hs in Hd by reflexivity. discriminate.
Qed.

(** ** System calls *)

Lemma create_inv (w w' : world) (d : cpath) (leaf : string) (k : kind) (mode : Z) :
  create w d leaf k mode = inr w' ->
  exists parent,
    files w !! d = Some parent /\ may w parent W_OK = true
    /\ w' = set_files w (<[d ++ [leaf] := new_inode w parent k mode]> (files w)).
Proof.
  unfold create. destruct (files w !! d) as [parent|]; [|discriminate].
  destruct (may w parent W_OK) eqn:Em; [|discriminate]. intros [= <-]. eauto.
Qed.

Lemma sys_open_w_inv (p : string) (w w' : world) (c : cpath) :
  sys_open_w p w = inr (c, w') ->
  exists d leaf j,
    c = d ++ [leaf]
    /\ namei_parent w p = inr (Some (d, leaf))
    /\ Str.ends_with_slash p = false /\ is_dot leaf = false /\ is_dotdot leaf = false
    /\ w' = set_files w (<[c := j]> (files w))
    /\ match files w !! c with
       | Some i => is_dir i = false /\ may w i W_OK = true /\ j = truncated w i
       | None =>
           exists parent,
             files w !! d = Some parent /\ may w parent W_OK = true
             /\ j = new_inode w parent (Reg EmptyString) mode_0666
       end.
Proof.
  unfold sys_open_w.
  destruct (namei_parent w p) as [|[[d leaf]|]] eqn:Ep; try discriminate.
  destruct (Str.ends_with_slash p) eqn:Hs; [discriminate|].
  destruct (is_dot leaf) eqn:Hdot; [discriminate|].
  destruct (is_dotdot leaf) eqn:Hdd; [discriminate|]. simpl.
  destruct (files w !! (d ++ [leaf])) as [i|] eqn:Ei.
  - destruct (i_kind i) eqn:Ek; [discriminate|].
    destruct (may w i W_OK) eqn:Em; [|discriminate]. intros [= <- <-].
    eexists d, leaf, _. rewrite Ei. split_and!; auto.
    unfold is_dir. now rewrite Ek.
  - destruct (create w d leaf (Reg EmptyString) mode_0666) as [|w1] eqn:Ec;
      [discriminate|].
    intros [= <- <-]. apply create_inv in Ec as (parent & Hd & Hm & ->).
    eexists d, leaf, _. rewrite Ei. split_and!; eauto.
Qed.

(** The data fit under the file size limit of the process. *)
Lemma sys_write_inv (c : cpath) (data : string) (w w' : world) :
  sys_write c data w = inr w' ->
  exists i,
    files w !! c = Some i
    /\ w' = set_files w (<[c := with_data i data]> (files w))
    /\ match fsize_limit w with
       | Some n => (String.length data <= n)%nat
       | None => True
       end.
Proof.
  unfold sys_write. destruct (files w !! c) as [i|]; [|discriminate].
  destruct (fsize_limit w) as [n|].
  - case_bool_decide; [|discriminate]. intros [= <-]. eauto.
  - intros [= <-]. eauto.
Qed.

Lemma set_files_twice (w : world) (c : cpath) (i j : inode) :
  set_files (set_files w (<[c := i]> (files w)))
            (<[c := j]> (files (set_files w (<[c := i]> (files w)))))
  = set_files w (<[c := j]> (files w)).
Proof. unfold set_files. simpl. now rewrite insert_insert_eq. Qed.

Lemma open_w_write_inv (p data : string) (w w' : world) :
  open_w_write p data w = Return tt w' ->
  exists d leaf j,
    namei_parent w p = inr (Some (d, leaf))
    /\ Str.ends_with_slash p = false /\ is_dot leaf = false /\ is_dotdot leaf = false
    /\ w' = set_files w (<[d ++ [leaf] := j]> (files w))
    /\ i_kind j = Reg data
    /\ match fsize_limit w with
       | Some n => (String.length data <= n)%nat
       | None => True
       end
    /\ match files w !! (d ++ [leaf]) with
       | Some i =>
           is_dir i = false /\ may w i W_OK = true
           /\ j = {| i_kind := Reg data; i_mode := drop_privileges w (i_mode i);
                     i_uid := i_uid i; i_gid := i_gid i |}
       | None =>
           exists parent,
             files w !! d = Some parent /\ may w parent W_OK = true
             /\ j = new_inode w parent (Reg data) mode_0666
       end.
Proof.
  unfold open_w_write, bind, open_w, file_write.
  destruct (sys_open_w p w) as [|[c w1]] eqn:Eo; [discriminate|].
  destruct (sys_write c data w1) as [[]|w2] eqn:Ew; [discriminate|]. intros [= <-].
  apply sys_open_w_inv in Eo as (d & leaf & j & -> & Hp & Hs & Hdot & Hdd & -> & Hold).
  apply sys_write_inv in Ew as (i & Hi & -> & Hfits).
  simpl in Hi. rewrite lookup_insert_eq in Hi. injection Hi as <-.
  rewrite set_files_twice. simpl in Hfits.
  exists d, leaf, (with_data j data). split_and!; auto.
  destruct (files w !! (d ++ [leaf])) as [i|].
  - destruct Hold as (Hd & Hm & ->). auto.
  - destruct Hold as (parent & Hd & Hm & ->). exists parent. auto.
Qed.

(** After a successful write the path names a regular file with the data
    written, and nothing else changed. *)
Lemma open_w_write_ok (p data : string) (w w' : world) :
  open_w_write p data w = Return tt w' ->
  extends w w'
  /\ exists d leaf j,
       namei_parent w p = inr (Some (d, leaf))
       /\ Str.ends_with_slash p = false /\ is_dot leaf = false /\ is_dotdot leaf = false
       /\ namei w' p = inr (d ++ [leaf], j) /\ i_kind j = Reg data
       /\ files w' = <[d ++ [leaf] := j]> (files w)
       /\ match files w !! (d ++ [leaf]) with
          | Some i => j = {| i_kind := Reg data; i_mode := drop_privileges w (i_mode i);
                             i_uid := i_uid i; i_gid := i_gid i |}
                      /\ is_dir i = false
          | None => exists parent,
                      files w !! d = Some parent
                      /\ j = new_inode w parent (Reg data) mode_0666
          end.
Proof.
  intros (d & leaf & j & Hp & Hs & Hdot & Hdd & -> & Hk & _ & Hold)%open_w_write_inv.
  assert (He : extends w (set_files w (<[d ++ [leaf] := j]> (files w)))).
  { apply extends_set. intros i Hi. rewrite Hi in Hold. tauto. }
  split; [exact He|]. exists d, leaf, j. split_and!; auto.
  - eapply namei_placed; eauto. simpl. apply lookup_insert_eq.
  - destruct (files w !! (d ++ [leaf])) as [i|]; [tauto|].
    destruct Hold as (parent & Hd & _ & ->). eauto.
Qed.

(** The write on a file that exists, and on one that does not. *)
Lemma open_w_write_existing (p data : string) (w : world) (d : cpath) (leaf : string)
    (i : inode) :
  namei_parent w p = inr (Some (d, leaf)) ->
  Str.ends_with_slash p = false -> is_dot leaf = false -> is_dotdot leaf = false ->
  files w !! (d ++ [leaf]) = Some i -> is_dir i = false -> may w i W_OK = true ->
  match fsize_limit w with
  | Some n => (String.length data <= n)%nat
  | None => True
  end ->
  open_w_write p data w
  = Return tt (set_files w
      (<[d ++ [leaf] := {| i_kind := Reg data; i_mode := drop_privileges w (i_mode i);
                           i_uid := i_uid i; i_gid := i_gid i |}]> (files w))).
Proof.
  intros Hp Hs Hdot Hdd Hi Hd Hm Hfits.
  unfold open_w_write, bind, open_w, sys_open_w.
  rewrite Hp, Hs, Hdot, Hdd, Hi. simpl.
  unfold is_dir in Hd. destruct (i_kind i); [discriminate|]. rewrite Hm.
  unfold file_write, sys_write. simpl. rewrite lookup_insert_eq.
  destruct (fsize_limit w) as [n|];
    [rewrite bool_decide_eq_true_2 by assumption|];
    now rewrite set_files_twice.
Qed.


Lemma drop_privileges_permissions (w : world) :
  drop_privileges w permissions = permissions.
Proof. unfold drop_privileges. destruct (bool_decide _); reflexivity. Qed.

(** Whatever is cleared, the execute bits and the other permission bits are
    not. *)
Lemma drop_privileges_low (w : world) (mode : Z) :
  Z.land (drop_privileges w mode) 511 = Z.land mode 511.
Proof.
  unfold drop_privileges. destruct (bool_decide _); [reflexivity|].
  rewrite Z.ldiff_land, <- Z.land_assoc. f_equal.
  destruct (Z.testbit mode 3); reflexivity.
Qed.

Lemma executable_low (mode : Z) : executable (Z.land mode 511) = executable mode.
Proof.
  unfold executable. rewrite <- Z.land_assoc.
  now change (Z.land 511 73) with 73.
Qed.

Lemma drop_privileges_executable (w : world) (mode : Z) :
  executable (drop_privileges w mode) = executable mode.
Proof.
  rewrite <- executable_low, drop_privileges_low. apply executable_low.
Qed.

(** [open] fails in the world as it is; a failed [write] leaves a file. *)
Lemma open_w_raises (p : string) (w w' : world) (e : exn) :
  open_w p w = Raise e w' -> w' = w /\ exists n, e = EnvironmentError n.
Proof.
  unfold open_w. destruct (sys_open_w p w) as [n|[c w1]]; [|discriminate].
  intros [= <- <-]. eauto.
Qed.

Lemma open_w_write_raises (p data : string) (w w' : world) (e : exn) :
  open_w_write p data w = Raise e w' -> exists n, e = EnvironmentError n.
Proof.
  unfold open_w_write, bind.
  destruct (open_w p w) as [c w1|e1 w1] eqn:Eo.
  - unfold file_write. destruct (sys_write c data w1) as [[n w2]|w2]; [|discriminate].
    intros [= <- <-]. eauto.
  - intros [= <- <-]. now apply open_w_raises in Eo as [_ Hn].
Qed.

Lemma sys_chmod_inv (p : string) (mode : Z) (w w' : world) :
  sys_chmod p mode w = inr w' ->
  exists c i,
    namei w p = inr (c, i)
    /\ (euid w = 0%nat \/ euid w = i_uid i)
    /\ w' = set_files w (<[c := {| i_kind := i_kind i; i_mode := Z.land mode 4095;
                                   i_uid := i_uid i; i_gid := i_gid i |}]> (files w)).
Proof.
  unfold sys_chmod. destruct (namei w p) as [|[c i]]; [discriminate|].
  destruct (_ || _) eqn:E; [|discriminate]. intros [= <-].
  exists c, i. repeat split; auto.
  apply orb_true_iff in E as [E|E]; apply bool_decide_eq_true in E; auto.
Qed.

Lemma sys_chmod_fails (p : string) (mode : Z) (w : world) (e : errno) :
  sys_chmod p mode w = inl e ->
  namei w p = inl e
  \/ exists c i, namei w p = inr (c, i) /\ e = EPERM
                 /\ euid w <> 0%nat /\ euid w <> i_uid i.
Proof.
  unfold sys_chmod. destruct (namei w p) as [e'|[c i]]; [intros [= <-]; auto|].
  destruct (_ || _) eqn:E; [discriminate|]. intros [= <-]. right.
  apply orb_false_elim in E as [E1 E2].
  apply bool_decide_eq_false in E1, E2. eauto 6.
Qed.

(** ** The tree shape of the filesystem *)

Lemma tree_set (w : world) (k : cpath) (j : inode) :
  tree w ->
  (forall c x, k = c ++ [x] ->
     exists i, files w !! c = Some i /\ is_dir i = true) ->
  (forall i, files w !! k = Some i -> is_dir i = true -> is_dir j = true) ->
  tree (set_files w (<[k := j]> (files w))).
Proof.
  intros Ht Hparent Hkind c x i. simpl.
  assert (Hup : forall c' i', files w !! c' = Some i' -> is_dir i' = true ->
                  exists j', <[k := j]> (files w) !! c' = Some j' /\ is_dir j' = true).
  { intros c' i' Hc' Hd'. destruct (decide (k = c')) as [->|Hne].
    - rewrite lookup_insert_eq. eauto.
    - rewrite lookup_insert_ne by assumption. eauto. }
  destruct (decide (k = c ++ [x])) as [->|Hne].
  - intros _. destruct (Hparent c x eq_refl) as (i' & Hi' & Hd'). eauto.
  - rewrite lookup_insert_ne by assumption. intros Hi.
    destruct (Ht _ _ _ Hi) as (j' & Hj' & Hd'). eauto.
Qed.


Lemma namei_parent_dir (w : world) (p : string) (d : cpath) (leaf : string) :
  namei_parent w p = inr (Some (d, leaf)) ->
  exists i, files w !! d = Some i /\ is_dir i = true /\ may w i X_OK = true.
Proof.
  unfold namei_parent. destruct (Str.is_empty p); [discriminate|].
  destruct (unsnoc (comps p)) as [[pre z]|]; [|discriminate].
  destruct (walk w (start w p) pre) as [|d']; [discriminate|].
  destruct (search_dir w d') eqn:Es; [discriminate|].
  intros [= <- <-]. now apply search_dir_None.
Qed.

Lemma sys_mkdir_inv (p : string) (mode : Z) (w w' : world) :
  sys_mkdir p mode w = inr w' ->
  exists d leaf parent,
    namei_parent w p = inr (Some (d, leaf))
    /\ is_dot leaf = false /\ is_dotdot leaf = false
    /\ files w !! (d ++ [leaf]) = None
    /\ files w !! d = Some parent /\ may w parent W_OK = true
    /\ w' = set_files w (<[d ++ [leaf] := new_inode w parent Dir mode]> (files w)).
Proof.
  unfold sys_mkdir.
  destruct (namei_parent w p) as [|[[d leaf]|]] eqn:Ep; try discriminate.
  destruct (is_dot leaf) eqn:Hdot; [discriminate|].
  destruct (is_dotdot leaf) eqn:Hdd; [discriminate|]. simpl.
  destruct (files w !! (d ++ [leaf])) eqn:Ei; [discriminate|].
  intros (parent & Hd & Hm & ->)%create_inv. eauto 10.
Qed.

Lemma sys_mkdir_world (p : string) (mode : Z) (w w' : world) :
  sys_mkdir p mode w = inr w' -> extends w w' /\ (tree w -> tree w').
Proof.
  intros (d & leaf & parent & Ep & _ & _ & Ei & _ & _ & ->)%sys_mkdir_inv. split.
  - apply extends_set. intros i Hi. congruence.
  - intros Ht. apply tree_set; [exact Ht | | intros i Hi; congruence].
    intros c x [-> ->]%app_inj_tail.
    destruct (namei_parent_dir _ _ _ _ Ep) as (i & Hi & Hd & _). eauto.
Qed.

Lemma open_w_write_tree (p data : string) (w w' : world) :
  open_w_write p data w = Return tt w' -> tree w -> tree w'.
Proof.
  intros (d & leaf & j & Hp & _ & _ & _ & -> & _ & _ & Hold)%open_w_write_inv Ht.
  apply tree_set; [exact Ht | | ].
  - intros c x [-> ->]%app_inj_tail.
    destruct (namei_parent_dir _ _ _ _ Hp) as (i & Hi & Hd & _). eauto.
  - intros i Hi Hd. rewrite Hi in Hold. destruct Hold as (Hnd & _). congruence.
Qed.

Lemma sys_chmod_tree (p : string) (mode : Z) (w w' : world) :
  sys_chmod p mode w = inr w' -> tree w -> tree w'.
Proof.
  intros (c & i & Hn & _ & ->)%sys_chmod_inv Ht.
  destruct (namei_ends_dir _ _ _ _ Hn) as [Hi _].
  apply tree_set; [exact Ht | | ].
  - intros c' x ->. eapply Ht; eauto.
  - intros i' Hi'. rewrite Hi in Hi'. injection Hi' as <-. auto.
Qed.

(** ** [os.makedirs] *)

Lemma str_length_app (a b : string) :
  String.length (a +:+ b) = (String.length a + String.length b)%nat.
Proof.
  induction a as [|x a IH]; [reflexivity|].
  rewrite str_app_cons. simpl. now rewrite IH.
Qed.

Lemma rstrip_length (s : string) :
  (String.length (Str.rstrip_slash s) <= String.length s)%nat.
Proof.
  destruct (rstrip_spec s) as (z & _ & Hs).
  rewrite Hs at 2. rewrite str_length_app. lia.
Qed.

Lemma split_length (name head tail : string) :
  os.path.split name = (head, tail) ->
  (String.length head + String.length tail <= String.length name)%nat.
Proof.
  unfold os.path.split.
  destruct (Str.rpartition_slash name) as [h t] eqn:E.
  destruct (rpartition_spec _ _ _ E) as (Hn & _ & _).
  intros [= <- <-]. rewrite Hn, str_length_app.
  destruct (_ && _); [pose proof (rstrip_length h)|]; lia.
Qed.

Lemma is_empty_false_length (s : string) :
  Str.is_empty s = false -> (0 < String.length s)%nat.
Proof. destruct s; [discriminate | simpl; lia]. Qed.

(** The head [makedirs] recurses on is shorter than the name. *)
Lemma makedirs_head_shorter (name head tail : string) :
  (let '(h, t) := os.path.split name in
   if Str.is_empty t then os.path.split h else (h, t)) = (head, tail) ->
  Str.is_empty tail = false ->
  (String.length head < String.length name)%nat.
Proof.
  destruct (os.path.split name) as [h t] eqn:E1.
  apply split_length in E1.
  destruct (Str.is_empty t) eqn:Et.
  - intros E2%split_length Hne%is_empty_false_length. lia.
  - intros [= <- <-] Hne%is_empty_false_length. lia.
Qed.

Lemma makedirs_body_ext (f g : string -> Py unit) (name : string) (w : world) :
  (forall head w', (String.length head < String.length name)%nat ->
                   f head w' = g head w') ->
  os.makedirs_body f name w = os.makedirs_body g name w.
Proof.
  intros Hfg. unfold os.makedirs_body.
  pose proof (makedirs_head_shorter name) as Hlt.
  destruct (os.path.split name) as [h t].
  destruct (if Str.is_empty t then os.path.split h else (h, t)) as [head tail].
  specialize (Hlt head tail eq_refl).
  unfold bind, os.path.exists_.
  destruct (Str.is_empty head); [reflexivity|].
  destruct (Str.is_empty tail); [reflexivity|]. simpl.
  destruct (negb _); [|reflexivity].
  now rewrite Hfg by auto.
Qed.

(** With room for as many calls as the name has characters, the result
    does not depend on the room. *)
Lemma makedirs_rec_depth (n m : nat) (name : string) (w : world) :
  (String.length name <= n)%nat -> (String.length name <= m)%nat ->
  os.makedirs_rec n name w = os.makedirs_rec m name w.
Proof.
  revert m name w. induction n as [|n IH]; intros [|m] name w Hn Hm; simpl;
    apply makedirs_body_ext; intros head w' Hlt; try lia.
  apply IH; lia.
Qed.



Lemma syscall_world (f : world -> errno + world) (w : world) :
  (forall w', f w = inr w' -> extends w w' /\ (tree w -> tree w')) ->
  extends w (final_world (syscall f w))
  /\ (tree w -> tree (final_world (syscall f w))).
Proof.
  intros Hf. unfold syscall. destruct (f w) as [e|w'] eqn:E; simpl.
  - split; [apply extends_refl | auto].
  - now apply Hf.
Qed.

Lemma mkdir_world (p : string) (mode : Z) (w : world) :
  extends w (final_world (os.mkdir p mode w))
  /\ (tree w -> tree (final_world (os.mkdir p mode w))).
Proof. apply syscall_world. intros w'. apply sys_mkdir_world. Qed.

(** [makedirs] only adds directories, and keeps the filesystem a tree. *)
Lemma makedirs_rec_world (n : nat) (name : string) (w : world) :
  extends w (final_world (os.makedirs_rec n name w))
  /\ (tree w -> tree (final_world (os.makedirs_rec n name w))).
Proof.
  revert name w. induction n as [|n IH]; intros name w; simpl;
    unfold os.makedirs_body;
    destruct (os.path.split name) as [h t];
    destruct (if Str.is_empty t then os.path.split h else (h, t)) as [head tail];
    unfold bind, os.path.exists_;
    (destruct (_ && _); [|apply mkdir_world]).
  - unfold raise. simpl. split; [apply extends_refl | auto].
  - destruct (IH head w) as [He Ht].
    destruct (os.makedirs_rec n head w) as [[] w1|e w1]; simpl in He, Ht.
    + destruct (bool_decide _); simpl; [auto|].
      destruct (mkdir_world name mode_0777 w1) as [He' Ht'].
      split; [eapply extends_trans; eauto | auto].
    + assert (Hk : extends w (final_world (Raise (A:=unit) e w1))
                   /\ (tree w -> tree (final_world (Raise (A:=unit) e w1))))
        by (simpl; auto).
      destruct e as [[]| |]; try exact Hk.
      destruct (bool_decide _); simpl; [auto|].
      destruct (mkdir_world name mode_0777 w1) as [He' Ht'].
      split; [eapply extends_trans; eauto | auto].
Qed.

Lemma ensure_dir_world (test_dir : string) (w : world) :
  extends w (final_world (ensure_dir test_dir w))
  /\ (tree w -> tree (final_world (ensure_dir test_dir w))).
Proof.
  unfold ensure_dir, bind, os.path.exists_.
  destruct (negb _); [apply makedirs_rec_world|].
  unfold ret. simpl. split; [apply extends_refl | auto].
Qed.

Lemma ensure_dir_eq (test_dir : string) (w : world) :
  ensure_dir test_dir w
  = match namei w test_dir with
    | inr _ => Return tt w
    | inl _ => os.makedirs test_dir w
    end.
Proof.
  unfold ensure_dir, bind, os.path.exists_, path_exists.
  destruct (namei w test_dir); reflexivity.
Qed.

(** ** What the directory step changes *)

Lemma only_dirs_added_refl (w : world) : only_dirs_added w w.
Proof. split; [repeat split | intros c; now left]. Qed.

Lemma only_dirs_added_trans (w1 w2 w3 : world) :
  only_dirs_added w1 w2 -> only_dirs_added w2 w3 -> only_dirs_added w1 w3.
Proof.
  intros [Hp12 H12] [Hp23 H23]. split.
  - destruct Hp12 as (? & ? & ? & ? & ? & ?), Hp23 as (? & ? & ? & ? & ? & ?).
    repeat split; congruence.
  - intros c. destruct (H12 c) as [E12|[N12 D12]], (H23 c) as [E23|[N23 D23]].
    + left. congruence.
    + right. split; [congruence|].
      destruct D23 as (i & Hi & Hd & Hu), Hp12 as (_ & Hu12 & _).
      exists i. split_and!; congruence.
    + right. split; [congruence|].
      destruct D12 as (i & Hi & Hd & Hu). exists i. split_and!; congruence.
    + destruct D12 as (i & Hi & _). congruence.
Qed.

Lemma only_dirs_added_extends (w w' : world) :
  only_dirs_added w w' -> extends w w'.
Proof.
  intros [(Hc & Hu & Hg & Hm & _) H]. unfold extends. split_and!; auto.
  intros c i Hi _. destruct (H c) as [E|[N _]]; congruence.
Qed.

Lemma only_dirs_added_keeps (w w' : world) (c : cpath) (i : inode) :
  only_dirs_added w w' -> files w !! c = Some i -> files w' !! c = Some i.
Proof. intros [_ H] Hi. destruct (H c) as [E|[N _]]; congruence. Qed.

(** What is no directory afterwards was there before, as it is. *)
Lemma only_dirs_added_file (w w' : world) (c : cpath) (i : inode) :
  only_dirs_added w w' -> files w' !! c = Some i -> is_dir i = false ->
  files w !! c = Some i.
Proof.
  intros [_ H] Hi Hd. destruct (H c) as [E|[_ (j & Hj & Hjd & _)]]; congruence.
Qed.

Lemma only_dirs_added_None (w w' : world) (c : cpath) :
  only_dirs_added w w' -> files w' !! c = None -> files w !! c = None.
Proof.
  intros [_ H] Hi. destruct (H c) as [E|[N _]]; congruence.
Qed.

Lemma sys_mkdir_adds (p : string) (mode : Z) (w w' : world) :
  sys_mkdir p mode w = inr w' -> only_dirs_added w w'.
Proof.
  intros (d & leaf & parent & _ & _ & _ & Ei & _ & _ & ->)%sys_mkdir_inv. split.
  - repeat split.
  - intros c. unfold same_or_new_dir. simpl.
    destruct (decide (d ++ [leaf] = c)) as [<-|Hne].
    + right. split; [assumption|]. rewrite lookup_insert_eq. eauto.
    + left. now apply lookup_insert_ne.
Qed.

Lemma mkdir_adds (p : string) (mode : Z) (w : world) :
  only_dirs_added w (final_world (os.mkdir p mode w)).
Proof.
  unfold os.mkdir, syscall. destruct (sys_mkdir p mode w) eqn:E; simpl.
  - apply only_dirs_added_refl.
  - now apply sys_mkdir_adds in E.
Qed.

Lemma makedirs_rec_adds (n : nat) (name : string) (w : world) :
  only_dirs_added w (final_world (os.makedirs_rec n name w)).
Proof.
  revert name w. induction n as [|n IH]; intros name w; simpl;
    unfold os.makedirs_body;
    destruct (os.path.split name) as [h t];
    destruct (if Str.is_empty t then os.path.split h else (h, t)) as [head tail];
    unfold bind, os.path.exists_;
    (destruct (_ && _); [|apply mkdir_adds]).
  - unfold raise. simpl. apply only_dirs_added_refl.
  - pose proof (IH head w) as He.
    destruct (os.makedirs_rec n head w) as [[] w1|e w1]; simpl in He.
    + destruct (bool_decide _); simpl; [assumption|].
      eapply only_dirs_added_trans; [exact He | apply mkdir_adds].
    + assert (Hk : only_dirs_added w (final_world (Raise (A:=unit) e w1)))
        by exact He.
      destruct e as [[]| |]; try exact Hk.
      destruct (bool_decide _); simpl; [assumption|].
      eapply only_dirs_added_trans; [exact He | apply mkdir_adds].
Qed.

Lemma ensure_dir_adds (test_dir : string) (w : world) :
  only_dirs_added w (final_world (ensure_dir test_dir w)).
Proof.
  rewrite ensure_dir_eq. destruct (namei w test_dir).
  - apply makedirs_rec_adds.
  - apply only_dirs_added_refl.
Qed.

(** The name of a file at the spot [namei_parent] finds for it. *)
Lemma namei_via_parent (w : world) (p : string) (d : cpath) (leaf : string) :
  namei_parent w p = inr (Some (d, leaf)) ->
  Str.ends_with_slash p = false -> is_dot leaf = false -> is_dotdot leaf = false ->
  namei w p = match files w !! (d ++ [leaf]) with
              | Some i => inr (d ++ [leaf], i)
              | None => inl ENOENT
              end.
Proof.
  intros Hp Hs Hdot Hdd. unfold namei_parent in Hp. unfold namei.
  destruct (Str.is_empty p); [discriminate|].
  destruct (unsnoc (comps p)) as [[pre z]|] eqn:Eu; [|discriminate].
  apply unsnoc_spec in Eu. rewrite Eu, walk_app.
  destruct (walk w (start w p) pre) as [|d'] eqn:Ew; [discriminate|].
  destruct (search_dir w d') eqn:Es; [discriminate|].
  injection Hp as -> ->. simpl. rewrite Es, Hdot, Hdd, Hs.
  destruct (files w !! (d ++ [leaf])); reflexivity.
Qed.

Lemma namei_added (w w' : world) (p : string) (c : cpath) (i : inode) :
  only_dirs_added w w' -> namei w p = inr (c, i) -> namei w' p = inr (c, i).
Proof.
  intros Ha. pose proof (only_dirs_added_extends _ _ Ha) as He.
  unfold namei. destruct (Str.is_empty p); [discriminate|].
  rewrite (start_extends _ _ _ He).
  destruct (walk w (start w p) (comps p)) as [|c'] eqn:Ew; [discriminate|].
  rewrite (walk_extends _ _ _ _ _ He Ew).
  destruct (files w !! c') as [i'|] eqn:Ei; [|discriminate].
  now rewrite (only_dirs_added_keeps _ _ _ _ Ha Ei).
Qed.

(** ** The generator, step by step *)

Lemma generate_steps (args : Namespace) (w w' : world) :
  generate args w = Return tt w' ->
  exists w1 w2,
    ensure_dir (os.path.dirname (out args)) w = Return tt w1
    /\ open_w_write (out args) (build_script (test args)) w1 = Return tt w2
    /\ sys_chmod (out args) permissions w2 = inr w'.
Proof.
  unfold generate, bind.
  destruct (ensure_dir _ w) as [[] w1|]; [|discriminate].
  destruct (open_w_write _ _ w1) as [[] w2|] eqn:E2; [|discriminate].
  unfold os.chmod, syscall.
  destruct (sys_chmod _ _ w2) as [|w3] eqn:E3; [discriminate|].
  intros [= <-]. eauto.
Qed.

(** What a successful run leaves: the file named by [--out] is a regular
    file holding the script, with mode [permissions]; the world after the
    write already holds the script. *)
Lemma generate_success (args : Namespace) (w w' : world) :
  generate args w = Return tt w' ->
  exists w1 w2 c j,
    ensure_dir (os.path.dirname (out args)) w = Return tt w1
    /\ open_w_write (out args) (build_script (test args)) w1 = Return tt w2
    /\ os.chmod (out args) permissions w2 = Return tt w'
    /\ extends w w1 /\ extends w1 w2 /\ extends w2 w'
    /\ namei w2 (out args) = inr (c, j)
    /\ i_kind j = Reg (build_script (test args))
    /\ (euid w2 = 0%nat \/ euid w2 = i_uid j)
    /\ namei w' (out args)
       = inr (c, {| i_kind := Reg (build_script (test args)); i_mode := permissions;
                    i_uid := i_uid j; i_gid := i_gid j |}).
Proof.
  intros (w1 & w2 & H1 & H2 & H3)%generate_steps.
  destruct (open_w_write_ok _ _ _ _ H2)
    as (He12 & d & leaf & j & _ & _ & _ & _ & Hn2 & Hk & _).
  destruct (sys_chmod_inv _ _ _ _ H3) as (c' & i & Hn2' & Hown & ->).
  rewrite Hn2 in Hn2'. injection Hn2' as <- <-.
  assert (Hnd : is_dir j = false) by (unfold is_dir; now rewrite Hk).
  exists w1, w2, (d ++ [leaf]), j.
  pose proof (ensure_dir_world (os.path.dirname (out args)) w) as [He01 _].
  rewrite H1 in He01. simpl in He01.
  unfold os.chmod, syscall. rewrite H3.
  split_and!; auto.
  - apply extends_set. intros i Hi.
    destruct (namei_ends_dir _ _ _ _ Hn2) as [Hj _]. congruence.
  - rewrite <- Hk. now apply namei_replaced with (i := j).
Qed.

Lemma file_content_namei (w : world) (p data : string) (c : cpath) (j : inode) :
  namei w p = inr (c, j) -> i_kind j = Reg data -> file_content w p = Some data.
Proof. intros Hn Hk. unfold file_content. now rewrite Hn, Hk. Qed.

Lemma generate_content (args : Namespace) (w w' : world) :
  generate args w = Return tt w' ->
  file_content w' (out args) = Some (build_script (test args))
  /\ file_mode w' (out args) = Some permissions.
Proof.
  intros (w1 & w2 & c & j & _ & _ & _ & _ & _ & _ & _ & _ & _ & Hn)%generate_success.
  unfold file_content, file_mode. now rewrite Hn.
Qed.

(** ** C1: the content of the generated file *)

(** C1. After a successful invocation with output path [P] and targets [T],
    the file at [P] holds the line [#!/bin/sh], an empty line, then every
    target of [T] as it was given, in order, each followed by one newline,
    and nothing after the last of them. *)
Theorem script_content (argv : list arg) (P : string) (T : list string) (w w' : world) :
  parse argv = Parsed {| out := P; test := T |} ->
  main argv w = Return tt w' ->
  T <> []
  /\ file_content w' P
     = Some ("#!/bin/sh" +:+ Str.nl +:+ Str.nl
             +:+ Str.concat (map (fun t => t +:+ Str.nl) T)).
Proof.
  intros Hp (ns & Hp' & Hg)%main_inv. rewrite Hp in Hp'. injection Hp' as <-.
  apply parse_parsed in Hp as (Ht & Hne & _). simpl in Ht. split.
  - now rewrite Ht.
  - apply generate_content in Hg as [Hc _]. simpl in Hc.
    rewrite Hc, build_script_lines. unfold shebang. now rewrite !str_app_assoc.
Qed.

Lemma script_content_witness :
  [ "./unit_test"; "./integration_test" ] <> []
  /\ file_content w0_done "/tmp/build/run_tests.sh"
     = Some ("#!/bin/sh" +:+ Str.nl +:+ Str.nl
             +:+ Str.concat (map (fun t => t +:+ Str.nl)
                               [ "./unit_test"; "./integration_test" ])).
Proof.
  apply (script_content argv0 "/tmp/build/run_tests.sh"
           [ "./unit_test"; "./integration_test" ] w0 w0_done);
    vm_compute; reflexivity.
Defined.

(** ** C2: the permission bits *)

Lemma permissions_value : permissions = 508.
Proof. reflexivity. Qed.

(** 508 is 0o774: bits 8..6 are the owner's rwx, bits 5..3 the group's, bit 2
    is read for the others; bit 1 (write) and bit 0 (execute) for the others
    are clear, and so is everything above. *)
Lemma permissions_bits (n : Z) : Z.testbit permissions n = true <-> 2 <= n <= 8.
Proof.
  rewrite permissions_value.
  destruct (Z.lt_ge_cases n 0) as [Hneg|Hpos].
  - rewrite Z.testbit_neg_r by assumption. split; [discriminate | lia].
  - destruct (Z.lt_ge_cases 8 n) as [Hbig|Hsmall].
    + rewrite Z.bits_above_log2 by (try lia; change (Z.log2 508) with 8; lia).
      split; [discriminate | lia].
    + assert (Hn : n = 0 \/ n = 1 \/ n = 2 \/ n = 3 \/ n = 4 \/ n = 5
                   \/ n = 6 \/ n = 7 \/ n = 8) by lia.
      repeat (destruct Hn as [->|Hn]); try subst n; simpl;
        (split; [try discriminate; lia | try lia; reflexivity]).
Qed.

(** C2. In a successful invocation the mode is set by a step of its own,
    after the write: there is a world [w2] in which the file already holds
    the script, and [os.chmod] takes [w2] to the final world, where the mode
    of the file is exactly 0o774: read, write and execute for the owner and
    for the group, read only for the others. *)
Theorem chmod_after_write (argv : list arg) (w w' : world) :
  main argv w = Return tt w' ->
  exists args w1 w2,
    parse argv = Parsed args
    /\ ensure_dir (os.path.dirname (out args)) w = Return tt w1
    /\ open_w_write (out args) (build_script (test args)) w1 = Return tt w2
    /\ file_content w2 (out args) = Some (build_script (test args))
    /\ os.chmod (out args) permissions w2 = Return tt w'
    /\ file_content w' (out args) = Some (build_script (test args))
    /\ file_mode w' (out args) = Some permissions
    /\ permissions = 508
    /\ (forall n, Z.testbit permissions n = true <-> 2 <= n <= 8).
Proof.
  intros (args & Hp & Hg)%main_inv.
  destruct (generate_content _ _ _ Hg) as [Hc Hm].
  destruct (generate_success _ _ _ Hg)
    as (w1 & w2 & c & j & H1 & H2 & H3 & _ & _ & _ & Hn2 & Hk & _ & _).
  exists args, w1, w2. split_and!; auto.
  - eapply file_content_namei; eauto.
  - apply permissions_bits.
Qed.

Lemma chmod_after_write_witness :
  exists args w1 w2,
    parse argv0 = Parsed args
    /\ ensure_dir (os.path.dirname (out args)) w0 = Return tt w1
    /\ open_w_write (out args) (build_script (test args)) w1 = Return tt w2
    /\ file_content w2 (out args) = Some (build_script (test args))
    /\ os.chmod (out args) permissions w2 = Return tt w0_done
    /\ file_content w0_done (out args) = Some (build_script (test args))
    /\ file_mode w0_done (out args) = Some permissions
    /\ permissions = 508
    /\ (forall n, Z.testbit permissions n = true <-> 2 <= n <= 8).
Proof.
  apply (chmod_after_write argv0 w0 w0_done). vm_compute. reflexivity.
Defined.

(** ** C3: the content as one string *)

(** C3 as the specification words it, with the shebang [#!/sh]: false in the
    scenario of the specification itself. *)
Lemma shebang_sh_counterexample :
  ~ (forall (argv : list arg) (P : string) (T : list string) (w w' : world),
       parse argv = Parsed {| out := P; test := T |} ->
       main argv w = Return tt w' ->
       file_content w' P
       = Some ("#!/sh" +:+ Str.nl +:+ Str.nl +:+ Str.join Str.nl T +:+ Str.nl)).
Proof.
  intros H.
  specialize (H argv0 "/tmp/build/run_tests.sh"
                [ "./unit_test"; "./integration_test" ] w0 w0_done).
  assert (Hp : parse argv0
               = Parsed {| out := "/tmp/build/run_tests.sh";
                           test := [ "./unit_test"; "./integration_test" ] |})
    by (vm_compute; reflexivity).
  assert (Hm : main argv0 w0 = Return tt w0_done) by (vm_compute; reflexivity).
  specialize (H Hp Hm). vm_compute in H. discriminate H.
Qed.

(** C3, amended. The content of the generated file is the string
    ["#!/bin/sh\n\n" + join(T, "\n") + "\n"]. *)
Theorem script_content_join (argv : list arg) (P : string) (T : list string) (w w' : world) :
  parse argv = Parsed {| out := P; test := T |} ->
  main argv w = Return tt w' ->
  file_content w' P
  = Some ("#!/bin/sh" +:+ Str.nl +:+ Str.nl +:+ Str.join Str.nl T +:+ Str.nl).
Proof.
  intros Hp (ns & Hp' & Hg)%main_inv. rewrite Hp in Hp'. injection Hp' as <-.
  apply parse_parsed in Hp as (Ht & Hne & _). simpl in Ht.
  apply generate_content in Hg as [Hc _]. simpl in Hc.
  rewrite Hc, build_script_lines, concat_lines_join by (now rewrite Ht).
  unfold shebang. now rewrite !str_app_assoc.
Qed.

Lemma script_content_join_witness :
  file_content w0_done "/tmp/build/run_tests.sh"
  = Some ("#!/bin/sh" +:+ Str.nl +:+ Str.nl
          +:+ Str.join Str.nl [ "./unit_test"; "./integration_test" ] +:+ Str.nl).
Proof.
  apply (script_content_join argv0 "/tmp/build/run_tests.sh"
           [ "./unit_test"; "./integration_test" ] w0 w0_done);
    vm_compute; reflexivity.
Defined.

(** ** C4: the order of the targets *)

(** Every list of targets can be given, and is read back as it is. *)
Lemma consume_tests (T : list string) (st : parsing) :
  consume (map (fun t => Opt "--test" (Some t)) T) st
  = finish (fold_left (fun st t => do_append t st) T st).
Proof.
  revert st. induction T as [|t T IH]; intros st; [reflexivity|].
  simpl. apply IH.
Qed.

Lemma fold_append (T : list string) (st : parsing) :
  T <> [] ->
  let st' := fold_left (fun st t => do_append t st) T st in
  ns_out st' = ns_out st /\ extras st' = extras st
  /\ ns_test st' = Some (default [] (ns_test st) ++ T)
  /\ append_test ∈ seen_actions st'
  /\ (forall a, a ∈ seen_actions st -> a ∈ seen_actions st').
Proof.
  revert st. induction T as [|t [|t' T] IH]; intros st Hne; [congruence| |].
  - simpl. split_and!; auto; [now left | intros a Ha; now right].
  - destruct (IH (do_append t st)) as (Ho & He & Ht & Hs & Hk); [discriminate|].
    change (fold_left _ (t :: t' :: T) st)
      with (fold_left (fun st t => do_append t st) (t' :: T) (do_append t st)).
    cbv zeta. rewrite Ho, He, Ht. simpl. split_and!; auto.
    + now rewrite <- app_assoc.
    + intros a Ha. apply Hk. now right.
Qed.

Lemma parse_canonical (P : string) (T : list string) :
  T <> [] ->
  parse (Opt "--out" (Some P) :: map (fun t => Opt "--test" (Some t)) T)
  = Parsed {| out := P; test := T |}.
Proof.
  intros Hne. unfold parse.
  change (consume (Opt "--out" (Some P) :: ?l) initial)
    with (consume l (do_store P initial)).
  rewrite consume_tests.
  destruct (fold_append T (do_store P initial) Hne) as (Ho & He & Ht & Hs & Hk).
  cbv zeta in *. unfold finish, parser. simpl.
  rewrite (bool_decide_eq_true_2 (store_out ∈ _)) by (apply Hk; now left).
  rewrite (bool_decide_eq_true_2 (append_test ∈ _)) by assumption.
  simpl. now rewrite He, Ho, Ht.
Qed.

(** C4. In a successful invocation the targets are read in the order of
    the [--test] flags of the command line, repeated ones included, and the
    lines of the generated file after the shebang are these targets, in
    that order. *)
Theorem order_of_targets (argv : list arg) (w w' : world) :
  main argv w = Return tt w' ->
  exists args,
    parse argv = Parsed args
    /\ test args = test_flags argv
    /\ last (out_flags argv) = Some (out args)
    /\ file_content w' (out args)
       = Some (shebang +:+ Str.concat (map line (test_flags argv))).
Proof.
  intros (args & Hp & Hg)%main_inv. exists args.
  destruct (parse_parsed _ _ Hp) as (Ht & _ & _ & Ho).
  apply generate_content in Hg as [Hc _].
  split_and!; auto. now rewrite Hc, build_script_lines, Ht.
Qed.

Lemma order_of_targets_witness :
  exists args,
    parse argv_twice = Parsed args
    /\ test args = test_flags argv_twice
    /\ last (out_flags argv_twice) = Some (out args)
    /\ file_content (final_world (main argv_twice w0)) (out args)
       = Some (shebang +:+ Str.concat (map line (test_flags argv_twice))).
Proof.
  apply (order_of_targets argv_twice w0). vm_compute. reflexivity.
Defined.

Example targets_twice_example :
  test_flags argv_twice = ["b"; "a"; "b"]
  /\ file_content (final_world (main argv_twice w0)) "/tmp/t.sh"
     = Some (shebang +:+ line "b" +:+ line "a" +:+ line "b").
Proof. vm_compute. auto. Qed.

(** ** C5: missing flags *)

Lemma program_parse (argv : list arg) (w : world) :
  match parse argv with
  | Parsed args => program argv w = bind (generate args) (fun _ => sys.exit None) w
  | Usage _ => program argv w = Raise (SystemExit 2) w
  | Help => program argv w = Raise (SystemExit 0) w
  end.
Proof.
  unfold program, main, parse_args, bind at 1 2.
  destruct (parse argv); reflexivity.
Qed.

(** C5 as the specification words it: false when help is asked for. *)
Lemma usage_error_counterexample :
  ~ (forall (argv : list arg) (w : world),
       test_flags argv = [] \/ out_flags argv = [] ->
       (exists message, parse argv = Usage message)
       /\ exit_status (program argv w) <> 0
       /\ final_world (program argv w) = w).
Proof.
  intros H.
  destruct (H [Opt "--help" None] w0) as (_ & Hx & _); [now left|].
  apply Hx. reflexivity.
Qed.

(** C5, amended. An invocation without a [--test] flag, or without [--out],
    never reaches the filesystem: the world is left as it was. It ends in
    [parse_args], by the help action with exit status 0 when [-h] or
    [--help] is met first, and otherwise by a usage error with exit status
    2; without [-h] and [--help] on the command line it is the usage
    error. *)
Theorem missing_flags_no_write (argv : list arg) (w : world) :
  test_flags argv = [] \/ out_flags argv = [] ->
  final_world (program argv w) = w
  /\ ((parse argv = Help /\ program argv w = Raise (SystemExit 0) w)
      \/ (exists message, parse argv = Usage message)
         /\ program argv w = Raise (SystemExit 2) w
         /\ exit_status (program argv w) <> 0)
  /\ (asks_help argv = false ->
      (exists message, parse argv = Usage message)
      /\ program argv w = Raise (SystemExit 2) w
      /\ exit_status (program argv w) <> 0).
Proof.
  intros Hmiss. pose proof (program_parse argv w) as Hprog.
  destruct (parse argv) as [args|message|] eqn:Hp.
  - apply parse_parsed in Hp as (_ & Ht & Ho & _). tauto.
  - rewrite Hprog. simpl.
    split_and!;
      [ reflexivity
      | right; split_and!; [eauto | reflexivity | discriminate]
      | intros _; split_and!; [eauto | reflexivity | discriminate] ].
  - rewrite Hprog. simpl.
    split_and!; [reflexivity | left; auto |].
    intros Hh. apply consume_help in Hp. congruence.
Qed.

Lemma missing_flags_no_write_witness :
  final_world (program [Opt "--out" (Some "/tmp/run.sh")] w0) = w0
  /\ ((parse [Opt "--out" (Some "/tmp/run.sh")] = Help
       /\ program [Opt "--out" (Some "/tmp/run.sh")] w0 = Raise (SystemExit 0) w0)
      \/ (exists message, parse [Opt "--out" (Some "/tmp/run.sh")] = Usage message)
         /\ program [Opt "--out" (Some "/tmp/run.sh")] w0 = Raise (SystemExit 2) w0
         /\ exit_status (program [Opt "--out" (Some "/tmp/run.sh")] w0) <> 0)
  /\ (asks_help [Opt "--out" (Some "/tmp/run.sh")] = false ->
      (exists message, parse [Opt "--out" (Some "/tmp/run.sh")] = Usage message)
      /\ program [Opt "--out" (Some "/tmp/run.sh")] w0 = Raise (SystemExit 2) w0
      /\ exit_status (program [Opt "--out" (Some "/tmp/run.sh")] w0) <> 0).
Proof.
  apply (missing_flags_no_write [Opt "--out" (Some "/tmp/run.sh")] w0).
  left. reflexivity.
Defined.

(** ** C9: the exit status *)

(** C9 as the specification words it: false when help is asked for, which
    exits with status 0 and writes nothing. *)
Lemma exit_zero_counterexample :
  ~ (forall (argv : list arg) (w : world),
       exit_status (program argv w) = 0 <-> exists w', main argv w = Return tt w').
Proof.
  intros H.
  destruct (proj1 (H [Opt "--help" None] w0) eq_refl) as [w' Hw'].
  discriminate Hw'.
Qed.

Lemma program_main (argv : list arg) (w : world) :
  program argv w
  = match main argv w with
    | Return _ w' => Raise (SystemExit 0) w'
    | Raise e w' => Raise e w'
    end.
Proof. unfold program, bind. destruct (main argv w); reflexivity. Qed.

Lemma main_raises (argv : list arg) (w w' : world) (e : exn) :
  main argv w = Raise e w' ->
  (e = SystemExit 0 /\ parse argv = Help)
  \/ (e = SystemExit 2 /\ exists message, parse argv = Usage message)
  \/ (exists args, parse argv = Parsed args /\ generate args w = Raise e w').
Proof.
  unfold main, parse_args, bind. destruct (parse argv) as [args|message|].
  - unfold ret. eauto.
  - unfold raise. intros [= <- <-]. eauto 6.
  - unfold raise. intros [= <- <-]. eauto.
Qed.

Lemma syscall_return (f : world -> errno + world) (w w' : world) :
  syscall f w = Return tt w' -> f w = inr w'.
Proof. unfold syscall. destruct (f w); [discriminate | now intros [= <-]]. Qed.

Lemma syscall_raises (f : world -> errno + world) (w w' : world) (e : exn) :
  syscall f w = Raise e w' -> exists n, e = EnvironmentError n.
Proof. unfold syscall. destruct (f w); [intros [= <- <-]; eauto | discriminate]. Qed.



(** [os.makedirs] fails by an error of the filesystem, or at the
    recursion limit. *)
Lemma makedirs_rec_raises (n : nat) (name : string) (w w' : world) (e : exn) :
  os.makedirs_rec n name w = Raise e w' ->
  e = RuntimeError \/ exists k, e = EnvironmentError k.
Proof.
  revert name w w' e. induction n as [|n IH]; intros name w w' e; simpl;
    unfold os.makedirs_body;
    destruct (os.path.split name) as [h t];
    destruct (if Str.is_empty t then os.path.split h else (h, t)) as [head tail];
    unfold bind, os.path.exists_;
    (destruct (_ && _); [|intros H; right; eapply syscall_raises, H]).
  - unfold raise. intros [= <- <-]. now left.
  - pose proof (IH head w) as Hrec.
    destruct (os.makedirs_rec n head w) as [[] w1|e1 w1].
    + destruct (bool_decide _); [discriminate|].
      intros H; right; eapply syscall_raises, H.
    + specialize (Hrec w1 e1 eq_refl).
      destruct e1 as [[]| |];
        try (intros [= <- <-]; exact Hrec);
        (destruct (bool_decide _); [discriminate|]);
        intros H; right; eapply syscall_raises, H.
Qed.

Lemma makedirs_raises (name : string) (w w' : world) (e : exn) :
  os.makedirs name w = Raise e w' ->
  e = RuntimeError \/ exists k, e = EnvironmentError k.
Proof. apply makedirs_rec_raises. Qed.

(** The generator fails by an error of the filesystem, or at the recursion
    limit in [os.makedirs]: with exit status 1 in both cases. *)
Lemma generate_raises (args : Namespace) (w w' : world) (e : exn) :
  generate args w = Raise e w' ->
  e = RuntimeError \/ exists n, e = EnvironmentError n.
Proof.
  unfold generate, bind.
  destruct (ensure_dir _ w) as [[] w1|e1 w1] eqn:E1.
  - destruct (open_w_write _ _ w1) as [[] w2|e2 w2] eqn:E2.
    + intros H. right. eapply syscall_raises, H.
    + intros [= <- <-]. right. eapply open_w_write_raises, E2.
  - intros [= <- <-]. rewrite ensure_dir_eq in E1.
    destruct (namei w _); [|discriminate]. eapply makedirs_raises, E1.
Qed.


Lemma generate_raises_status (args : Namespace) (w w' : world) (e : exn) :
  generate args w = Raise e w' -> exit_status (Raise (A:=unit) e w') = 1.
Proof. intros [->|[n ->]]%generate_raises; reflexivity. Qed.

(** C9, amended. The exit status is zero exactly when the four steps all
    succeed or the help action is reached, which prints the help and writes
    nothing; a usage error exits with status 2, an error of the filesystem
    with status 1. *)
Theorem exit_status_zero (argv : list arg) (w : world) :
  (exit_status (program argv w) = 0
   <-> (exists w', main argv w = Return tt w') \/ parse argv = Help)
  /\ ((exists message, parse argv = Usage message) ->
      exit_status (program argv w) = 2)
  /\ (forall e w', main argv w = Raise (EnvironmentError e) w' ->
      exit_status (program argv w) = 1)
  /\ (parse argv = Help -> program argv w = Raise (SystemExit 0) w).
Proof.
  pose proof (program_parse argv w) as Hprog. rewrite program_main in *.
  split_and!.
  - destruct (main argv w) as [[] w1|e w1] eqn:Hm; simpl.
    + split; eauto.
    + split.
      * intros He. right.
        destruct (main_raises _ _ _ _ Hm) as [[_ Hh]|[[-> _]|(args & _ & Hg)]];
          [assumption | discriminate |].
        apply generate_raises_status in Hg. simpl in *. lia.
      * intros [[w' Hw']|Hh]; [discriminate|].
        rewrite Hh in Hprog. now injection Hprog as -> ->.
  - intros [message Hu]. rewrite Hu in Hprog. now rewrite Hprog.
  - intros e w' ->. reflexivity.
  - intros Hh. now rewrite Hh in Hprog.
Qed.

Lemma exit_status_zero_witness :
  exit_status (program argv0 w0) = 0
  /\ exit_status (program [Opt "--test" (Some "t")] w0) = 2
  /\ exit_status (program [Opt "--out" (Some "run.sh"); Opt "--test" (Some "t")] w0) = 1
  /\ program [Opt "-h" None] w0 = Raise (SystemExit 0) w0.
Proof.
  split_and!.
  - apply (proj1 (exit_status_zero argv0 w0)). left. exists w0_done.
    vm_compute. reflexivity.
  - apply (proj1 (proj2 (exit_status_zero [Opt "--test" (Some "t")] w0))).
    eexists. vm_compute. reflexivity.
  - apply (proj1 (proj2 (proj2 (exit_status_zero
             [Opt "--out" (Some "run.sh"); Opt "--test" (Some "t")] w0))) ENOENT w0).
    vm_compute. reflexivity.
  - apply (proj2 (proj2 (proj2 (exit_status_zero [Opt "-h" None] w0)))).
    vm_compute. reflexivity.
Defined.

(** ** C10: an output path without a directory part *)

Lemma makedirs_empty (w : world) :
  os.makedirs EmptyString w = Raise (EnvironmentError ENOENT) w.
Proof. unfold os.makedirs. destruct (depth_left w); reflexivity. Qed.

Lemma ensure_dir_empty (w : world) :
  ensure_dir EmptyString w = Raise (EnvironmentError ENOENT) w.
Proof. rewrite ensure_dir_eq. apply makedirs_empty. Qed.

Lemma ensure_dir_existing (test_dir : string) (w : world) :
  path_exists w test_dir = true -> ensure_dir test_dir w = Return tt w.
Proof.
  rewrite ensure_dir_eq. unfold path_exists.
  destruct (namei w test_dir); [discriminate | reflexivity].
Qed.


Lemma ensure_dir_nonempty (test_dir : string) (w w1 : world) :
  ensure_dir test_dir w = Return tt w1 -> test_dir <> EmptyString.
Proof. intros H ->. rewrite ensure_dir_empty in H. discriminate H. Qed.

(** C10. When the output path holds no slash, its directory part is the
    empty string, which [os.path.exists] does not find; [os.makedirs] is
    called on it and raises (ENOENT). The exception is not caught: the
    invocation ends with exit status 1 and the world as it was, no file
    written, whatever the working directory is. The path may even be
    empty. *)
Theorem no_separator_fails (argv : list arg) (args : Namespace) (w : world) :
  parse argv = Parsed args ->
  Str.has_slash (out args) = false ->
  os.path.dirname (out args) = EmptyString
  /\ path_exists w EmptyString = false
  /\ os.makedirs EmptyString w = Raise (EnvironmentError ENOENT) w
  /\ main argv w = Raise (EnvironmentError ENOENT) w
  /\ exit_status (program argv w) = 1
  /\ final_world (program argv w) = w.
Proof.
  intros Hp Hs. pose proof (dirname_noslash _ Hs) as Hd.
  assert (Hm : main argv w = Raise (EnvironmentError ENOENT) w).
  { unfold main, parse_args, bind. rewrite Hp. unfold ret, generate, bind.
    now rewrite Hd, ensure_dir_empty. }
  rewrite program_main, Hm. pose proof (makedirs_empty w). auto 10.
Qed.

Lemma no_separator_fails_witness :
  os.path.dirname "run_tests.sh" = EmptyString
  /\ path_exists w0 EmptyString = false
  /\ os.makedirs EmptyString w0 = Raise (EnvironmentError ENOENT) w0
  /\ main argv_bare w0 = Raise (EnvironmentError ENOENT) w0
  /\ exit_status (program argv_bare w0) = 1
  /\ final_world (program argv_bare w0) = w0.
Proof.
  apply (no_separator_fails argv_bare
           {| out := "run_tests.sh"; test := ["./unit_test"] |} w0);
    reflexivity.
Defined.

(** ** C6: the parent directory *)

(** Where the file goes is where the directory part of its path leads. *)
Lemma parent_isdir (w : world) (p : string) (d : cpath) (leaf : string) :
  namei_parent w p = inr (Some (d, leaf)) ->
  Str.ends_with_slash p = false ->
  os.path.dirname p <> EmptyString ->
  exists i, namei w (os.path.dirname p) = inr (d, i) /\ is_dir i = true.
Proof.
  intros Hp Hs Hd.
  destruct (namei_parent_dir _ _ _ _ Hp) as (i & Hi & Hdir & _).
  destruct (dirname_comps p Hd Hs) as (t & Hc).
  unfold namei_parent in Hp. destruct (Str.is_empty p); [discriminate|].
  destruct (unsnoc (comps p)) as [[pre z]|] eqn:Eu; [|discriminate].
  apply unsnoc_spec in Eu. rewrite Hc in Eu. apply app_inj_tail in Eu as [<- <-].
  destruct (walk w (start w p) (comps (os.path.dirname p))) as [|d'] eqn:Ew;
    [discriminate|].
  destruct (search_dir w d'); [discriminate|]. injection Hp as ->.
  exists i. split; [|assumption]. unfold namei.
  destruct (os.path.dirname p) as [|c s] eqn:Ed; [congruence|]. simpl Str.is_empty.
  cbv iota. unfold start in *. rewrite <- Ed, (dirname_starts p) by congruence.
  rewrite <- Ed in Ew. rewrite Ew, Hi, Hdir. now rewrite andb_false_r.
Qed.

Lemma main_parsed (argv : list arg) (args : Namespace) (w : world) :
  parse argv = Parsed args -> main argv w = generate args w.
Proof. intros Hp. unfold main, parse_args, bind. now rewrite Hp. Qed.


(** C6. The directory step misses the output path without a directory
    part. With [--out run_tests.sh] in the working directory [/tmp], the
    parent directory of the output path is [/tmp]: it exists, it is a
    directory, and the process may search it and write to it. The step has
    nothing to create and should succeed silently. But [os.path.dirname]
    gives the empty string, [os.path.exists] does not find it, and
    [os.makedirs] is called on it and raises ENOENT: the invocation ends
    there, with exit status 1, the world as it was and no file. Named
    [./run_tests.sh], the same file in the same directory is generated. *)
Theorem directory_step_bare_name :
  parse argv_bare = Parsed {| out := "run_tests.sh"; test := ["./unit_test"] |}
  /\ namei_parent w0 "run_tests.sh" = inr (Some (["tmp"], "run_tests.sh"))
  /\ files w0 !! ["tmp"] = Some tmp_dir
  /\ is_dir tmp_dir = true /\ may w0 tmp_dir X_OK = true /\ may w0 tmp_dir W_OK = true
  /\ os.path.dirname "run_tests.sh" = EmptyString
  /\ path_exists w0 (os.path.dirname "run_tests.sh") = false
  /\ ensure_dir (os.path.dirname "run_tests.sh") w0
     = Raise (EnvironmentError ENOENT) w0
  /\ main argv_bare w0 = Raise (EnvironmentError ENOENT) w0
  /\ exit_status (program argv_bare w0) = 1
  /\ file_content (final_world (program argv_bare w0)) "run_tests.sh" = None
  /\ parse argv_dotslash
     = Parsed {| out := "./run_tests.sh"; test := ["./unit_test"] |}
  /\ ensure_dir (os.path.dirname "./run_tests.sh") w0 = Return tt w0
  /\ main argv_dotslash w0 = Return tt (final_world (main argv_dotslash w0))
  /\ file_content (final_world (main argv_dotslash w0)) "run_tests.sh"
     = Some (build_script ["./unit_test"]).
Proof. vm_compute. split_and!; reflexivity. Qed.

(** Where the output path has a directory part that is missing, the
    scenario of the specification, the directories are created. *)
Example directory_created_example :
  path_exists w0 "/tmp/build" = false
  /\ os.path.isdir w0_done "/tmp/build" = true
  /\ path_exists w0 "a/b/c" = false
  /\ os.path.isdir (final_world (os.makedirs "a/b/c" w0)) "/tmp/a/b/c" = true
  /\ ensure_dir "/tmp/build" w0_done = Return tt w0_done.
Proof. vm_compute. auto 6. Qed.

(** ** C7: the same arguments, the same file *)

Lemma set_files_insert_id (w : world) (c : cpath) (j : inode) :
  files w !! c = Some j -> set_files w (<[c := j]> (files w)) = w.
Proof. intros H. rewrite insert_id by assumption. now destruct w. Qed.

Lemma owner_may_write (w : world) (j : inode) :
  euid w = 0%nat \/ euid w = i_uid j -> i_mode j = permissions ->
  may w j W_OK = true.
Proof.
  intros Hown Hm. unfold may. case_bool_decide; [reflexivity|].
  destruct Hown as [?|Hu]; [contradiction|].
  rewrite bool_decide_eq_true_2 by assumption. now rewrite Hm.
Qed.

(** Run again where it has succeeded, the generator succeeds and changes
    nothing. *)
Lemma generate_replay (args : Namespace) (w w' : world) :
  generate args w = Return tt w' -> generate args w' = Return tt w'.
Proof.
  intros Hg.
  destruct (generate_success _ _ _ Hg)
    as (w1 & w2 & c & j & H1 & H2 & H3 & _ & He12 & He2 & Hn2 & Hk & Hown & Hn3).
  destruct (open_w_write_ok _ _ _ _ H2)
    as (_ & d & leaf & j0 & Hpar & Hs & Hdot & Hdd & Hn2' & _).
  rewrite Hn2 in Hn2'. injection Hn2' as -> <-.
  assert (Hfits : match fsize_limit w' with
                  | Some n => (String.length (build_script (test args)) <= n)%nat
                  | None => True
                  end).
  { apply open_w_write_inv in H2 as (? & ? & ? & _ & _ & _ & _ & E2 & _ & Hf & _).
    apply syscall_return, sys_chmod_inv in H3 as (? & ? & _ & _ & E3).
    rewrite E3, E2. exact Hf. }
  assert (He1 : extends w1 w') by (eapply extends_trans; eauto).
  destruct (parent_isdir _ _ _ _ Hpar Hs (ensure_dir_nonempty _ _ _ H1))
    as (i & Hn1 & Hdir).
  pose proof (namei_dir_extends _ _ _ _ _ He1 Hn1 Hdir) as Hnd.
  pose proof (namei_parent_extends _ _ _ _ _ He1 Hpar) as Hpar'.
  destruct (namei_ends_dir _ _ _ _ Hn3) as [Hj' _].
  assert (Hown' : euid w' = 0%nat \/ euid w' = i_uid j).
  { destruct He2 as (_ & -> & _). exact Hown. }
  unfold generate, bind.
  rewrite ensure_dir_existing by (unfold path_exists; now rewrite Hnd).
  assert (Hw : open_w_write (out args) (build_script (test args)) w' = Return tt w').
  { rewrite (open_w_write_existing _ _ _ _ _ _ Hpar' Hs Hdot Hdd Hj')
      by (auto using owner_may_write).
    simpl. rewrite drop_privileges_permissions. now rewrite set_files_insert_id. }
  rewrite Hw. unfold os.chmod, syscall, sys_chmod. rewrite Hn3. simpl.
  assert (Hb : bool_decide (euid w' = 0%nat) || bool_decide (euid w' = i_uid j) = true).
  { apply orb_true_iff. destruct Hown'; [left | right]; now apply bool_decide_eq_true_2. }
  rewrite Hb. change (Z.land permissions 4095) with permissions.
  now rewrite set_files_insert_id.
Qed.

(** C7. Two successful invocations with the same arguments, in whatever
    worlds, leave the same content in the output file, that of the script
    built from the arguments: what the file held before does not matter.
    And an invocation repeated where it has just succeeded succeeds again
    and leaves the world as it is. *)
Theorem identical_output (argv : list arg) (w1 w1' w2 w2' : world) :
  main argv w1 = Return tt w1' ->
  main argv w2 = Return tt w2' ->
  exists args,
    parse argv = Parsed args
    /\ file_content w1' (out args) = Some (build_script (test args))
    /\ file_content w2' (out args) = Some (build_script (test args))
    /\ file_content w1' (out args) = file_content w2' (out args)
    /\ main argv w1' = Return tt w1'.
Proof.
  intros (args & Hp & Hg1)%main_inv (args' & Hp' & Hg2)%main_inv.
  rewrite Hp in Hp'. injection Hp' as <-.
  destruct (generate_content _ _ _ Hg1) as [Hc1 _].
  destruct (generate_content _ _ _ Hg2) as [Hc2 _].
  exists args. split_and!; auto; [congruence|].
  rewrite (main_parsed argv args w1' Hp). eapply generate_replay, Hg1.
Qed.

Lemma identical_output_witness :
  exists args,
    parse argv0 = Parsed args
    /\ file_content w0_done (out args) = Some (build_script (test args))
    /\ file_content w_old_done (out args) = Some (build_script (test args))
    /\ file_content w0_done (out args) = file_content w_old_done (out args)
    /\ main argv0 w0_done = Return tt w0_done.
Proof.
  apply (identical_output argv0 w0 w0_done w_old w_old_done);
    vm_compute; reflexivity.
Defined.

Example overwritten_example :
  file_content w_old "/tmp/build/run_tests.sh" = Some "echo old"
  /\ file_content w_old_done "/tmp/build/run_tests.sh" = Some (build_script (test_flags argv0))
  /\ file_mode w_old "/tmp/build/run_tests.sh" = Some 420
  /\ file_mode w_old_done "/tmp/build/run_tests.sh" = Some 508.
Proof. vm_compute. auto. Qed.

(** ** C8: the permission change fails after the write *)

(** C8 as the specification words it: false where the file existed with
    execute bits and belongs to someone else. *)
Lemma not_executable_counterexample :
  ~ (forall (argv : list arg) (args : Namespace) (w w1 w2 : world) (e : exn),
       parse argv = Parsed args ->
       ensure_dir (os.path.dirname (out args)) w = Return tt w1 ->
       open_w_write (out args) (build_script (test args)) w1 = Return tt w2 ->
       os.chmod (out args) permissions w2 = Raise e w2 ->
       main argv w = Raise e w2
       /\ (exists n, e = EnvironmentError n)
       /\ file_content w2 (out args) = Some (build_script (test args))
       /\ exists mode, file_mode w2 (out args) = Some mode /\ executable mode = false).
Proof.
  intros H.
  destruct (H argv_shared {| out := "/tmp/run.sh"; test := ["./unit_test"] |}
              w_shared w_shared w_shared_written (EnvironmentError EPERM))
    as (_ & _ & _ & mode & Hm & Hx); try (vm_compute; reflexivity).
  vm_compute in Hm. injection Hm as <-. discriminate Hx.
Qed.

(** A file that [open] creates has no execute bit. *)
Lemma new_file_not_executable (w : world) (parent : inode) (data : string) :
  executable (i_mode (new_inode w parent (Reg data) mode_0666)) = false.
Proof.
  unfold executable, new_inode. cbn [i_mode].
  rewrite Z.lor_0_r, Z.ldiff_land, <- Z.land_assoc, (Z.land_comm _ 73), Z.land_assoc.
  reflexivity.
Qed.

(** C8, amended. When the write succeeds and the permission change then
    fails, the invocation ends on that error, with exit status 1, in the
    very world the write left: the file holds the new script, and nothing is
    rolled back or deleted. The file is not executable, unless a file was
    there before the invocation and was executable: the write keeps the
    execute bits. *)
Theorem chmod_failure_keeps_file
    (argv : list arg) (args : Namespace) (w w1 w2 : world) (e : exn) :
  parse argv = Parsed args ->
  ensure_dir (os.path.dirname (out args)) w = Return tt w1 ->
  open_w_write (out args) (build_script (test args)) w1 = Return tt w2 ->
  os.chmod (out args) permissions w2 = Raise e w2 ->
  main argv w = Raise e w2
  /\ (exists n, e = EnvironmentError n)
  /\ exit_status (program argv w) = 1
  /\ final_world (program argv w) = w2
  /\ file_content w2 (out args) = Some (build_script (test args))
  /\ exists c j,
       namei w2 (out args) = inr (c, j)
       /\ executable (i_mode j)
          = match files w !! c with
            | Some i => executable (i_mode i)
            | None => false
            end.
Proof.
  intros Hp H1 H2 H3.
  assert (Hm : main argv w = Raise e w2).
  { rewrite (main_parsed _ _ _ Hp). unfold generate, bind. now rewrite H1, H2. }
  destruct (syscall_raises _ _ _ _ H3) as [n ->].
  pose proof (ensure_dir_adds (os.path.dirname (out args)) w) as Ha.
  rewrite H1 in Ha. simpl in Ha.
  destruct (open_w_write_ok _ _ _ _ H2)
    as (He & d & leaf & j & Hpar & Hs & Hdot & Hdd & Hn2 & Hk & _ & Hold).
  rewrite program_main, Hm. split_and!; eauto.
  - eapply file_content_namei; eauto.
  - exists (d ++ [leaf]), j. split; [exact Hn2|].
    destruct (files w1 !! (d ++ [leaf])) as [i|] eqn:Ei.
    + destruct Hold as [-> Hd].
      rewrite (only_dirs_added_file _ _ _ _ Ha Ei Hd). simpl.
      apply drop_privileges_executable.
    + destruct Hold as (parent & _ & ->).
      rewrite (only_dirs_added_None _ _ _ Ha Ei).
      apply new_file_not_executable.
Qed.

Lemma chmod_failure_keeps_file_witness :
  main argv_shared w_shared = Raise (EnvironmentError EPERM) w_shared_written
  /\ (exists n, EnvironmentError EPERM = EnvironmentError n)
  /\ exit_status (program argv_shared w_shared) = 1
  /\ final_world (program argv_shared w_shared) = w_shared_written
  /\ file_content w_shared_written "/tmp/run.sh" = Some (build_script ["./unit_test"])
  /\ exists c j,
       namei w_shared_written "/tmp/run.sh" = inr (c, j)
       /\ executable (i_mode j)
          = match files w_shared !! c with
            | Some i => executable (i_mode i)
            | None => false
            end.
Proof.
  apply (chmod_failure_keeps_file argv_shared
           {| out := "/tmp/run.sh"; test := ["./unit_test"] |}
           w_shared w_shared w_shared_written (EnvironmentError EPERM));
    vm_compute; reflexivity.
Defined.

(** The shared file stays executable; with set-ID bits, 0o6774, it loses
    them to the write and keeps the rest, 0o774. *)
Example shared_file_example :
  file_mode w_shared_written "/tmp/run.sh" = Some 508
  /\ executable 508 = true
  /\ file_content w_shared_written "/tmp/run.sh"
     = Some (shebang +:+ line "./unit_test")
  /\ main argv_shared w_setid
     = Raise (EnvironmentError EPERM) (final_world (main argv_shared w_setid))
  /\ file_mode w_setid "/tmp/run.sh" = Some 3580
  /\ file_mode (final_world (main argv_shared w_setid)) "/tmp/run.sh" = Some 508.
Proof. vm_compute. auto 6. Qed.

(** * Further properties of [main] *)

(** ** The lines of the script *)

Lemma split_on_cons (sep : ascii) (s : string) :
  exists a l, split_on sep s = a :: l.
Proof.
  induction s as [|x s (a & l & E)]; simpl; [eauto|].
  destruct (bool_decide (x = sep)); [eauto|]. rewrite E. eauto.
Qed.

Lemma split_on_app (sep : ascii) (x y : string) :
  split_on sep (x +:+ String sep y) = split_on sep x ++ split_on sep y.
Proof.
  induction x as [|c x IH].
  - rewrite str_app_nil_l. simpl. now rewrite bool_decide_eq_true_2.
  - rewrite str_app_cons. simpl. rewrite IH.
    destruct (bool_decide (c = sep)); [reflexivity|].
    destruct (split_on_cons sep x) as (a & l & ->). reflexivity.
Qed.

Lemma split_on_absent (sep : ascii) (t : string) :
  has_char sep t = false -> split_on sep t = [t].
Proof.
  induction t as [|c t IH]; simpl; [reflexivity|].
  intros [Hc Ht]%orb_false_elim. now rewrite Hc, (IH Ht).
Qed.

Lemma str_concat_app (l1 l2 : list string) :
  Str.concat (l1 ++ l2) = Str.concat l1 +:+ Str.concat l2.
Proof.
  induction l1 as [|x l1 IH]; [reflexivity|].
  simpl. now rewrite IH, str_app_assoc.
Qed.

Lemma line_split (t rest : string) :
  line t +:+ rest = t +:+ String newline rest.
Proof. unfold line, Str.nl. now rewrite str_app_assoc. Qed.

Lemma split_lines (T : list string) :
  Forall (fun t => has_char newline t = false) T ->
  split_on newline (Str.concat (map line T)) = T ++ [EmptyString].
Proof.
  induction 1 as [|t T Ht _ IH]; [reflexivity|].
  simpl. rewrite line_split, split_on_app, IH, (split_on_absent _ _ Ht).
  reflexivity.
Qed.

(** X1. The targets can be read back from the script: when no target holds
    a newline, cutting the script at its newlines gives the shebang, an
    empty string, the targets in order, and an empty string for the end. *)
Theorem script_split_lines (T : list string) :
  Forall (fun t => has_char newline t = false) T ->
  split_on newline (build_script T) = "#!/bin/sh" :: EmptyString :: T ++ [EmptyString].
Proof.
  intros HT. rewrite build_script_lines.
  change (shebang +:+ Str.concat (map line T))
    with ("#!/bin/sh" +:+ String newline
            (EmptyString +:+ String newline (Str.concat (map line T)))).
  rewrite !split_on_app, (split_lines T HT). reflexivity.
Qed.

Lemma script_split_lines_witness :
  split_on newline (build_script ["./unit_test"; "./integration_test"])
  = ["#!/bin/sh"; EmptyString; "./unit_test"; "./integration_test"; EmptyString].
Proof.
  apply (script_split_lines ["./unit_test"; "./integration_test"]).
  repeat constructor.
Defined.

(** X2. Two lists of targets without newlines that give the same script
    are the same list. *)
Theorem script_injective (T1 T2 : list string) :
  Forall (fun t => has_char newline t = false) T1 ->
  Forall (fun t => has_char newline t = false) T2 ->
  build_script T1 = build_script T2 -> T1 = T2.
Proof.
  intros H1 H2 E.
  pose proof (script_split_lines T1 H1) as E1.
  rewrite E, (script_split_lines T2 H2) in E1.
  injection E1 as E1. now apply app_inv_tail in E1.
Qed.

Lemma script_injective_witness : ["a"; "b"] = ["a"; "b"].
Proof.
  apply (script_injective ["a"; "b"] ["a"; "b"]);
    [repeat constructor | repeat constructor | reflexivity].
Defined.

(** X3. Nothing is escaped: a target that holds a newline gives the very
    script that its two halves give as two targets. *)
Theorem script_newline_in_target (before after : list string) (a b : string) :
  build_script (before ++ [a +:+ Str.nl +:+ b] ++ after)
  = build_script (before ++ [a; b] ++ after).
Proof.
  rewrite !build_script_lines. f_equal.
  rewrite !map_app, !str_concat_app. f_equal. f_equal.
  simpl. unfold line. now rewrite !str_app_assoc, !str_app_nil_r.
Qed.

(** ** The command lines that parse *)

Lemma finish_ready (st : parsing) (o : string) (t : list string) :
  extras st = [] -> ns_out st = Some o -> ns_test st = Some t ->
  store_out ∈ seen_actions st -> append_test ∈ seen_actions st ->
  finish st = Parsed {| out := o; test := t |}.
Proof.
  intros He Ho Ht Hs Ha. unfold finish, parser. simpl.
  rewrite (bool_decide_eq_true_2 (store_out ∈ _)) by assumption.
  rewrite (bool_decide_eq_true_2 (append_test ∈ _)) by assumption.
  simpl. now rewrite He, Ho, Ht.
Qed.

Lemma wellformed_inv (a : arg) :
  wellformed a = true ->
  exists v, a = Opt "--out" (Some v) \/ a = Opt "--test" (Some v).
Proof.
  destruct a as [o [v|]|s]; simpl; try discriminate.
  intros [H|H]%orb_true_iff; apply bool_decide_eq_true in H; subst; eauto.
Qed.

Lemma consume_wellformed (args : list arg) (st : parsing) :
  forallb wellformed args = true ->
  extras st = [] ->
  (store_out ∈ seen_actions st -> is_Some (ns_out st)) ->
  (append_test ∈ seen_actions st -> is_Some (ns_test st)) ->
  store_out ∈ seen_actions st \/ out_flags args <> [] ->
  append_test ∈ seen_actions st \/ test_flags args <> [] ->
  exists ns, consume args st = Parsed ns.
Proof.
  revert st. induction args as [|a args IH]; intros st Hwf He Hso Hsa Ho Ht.
  - destruct Ho as [Ho|Ho]; [|now destruct Ho].
    destruct Ht as [Ht|Ht]; [|now destruct Ht].
    destruct (Hso Ho) as [o Eo]. destruct (Hsa Ht) as [t Et].
    exists {| out := o; test := t |}. simpl. now apply finish_ready.
  - simpl in Hwf. apply andb_prop in Hwf as [Ha Hwf].
    destruct (wellformed_inv _ Ha) as (v & [-> | ->]).
    + change (consume (Opt "--out" (Some v) :: args) st)
        with (consume args (do_store v st)).
      apply IH; simpl.
      * exact Hwf.
      * exact He.
      * intros _. eauto.
      * intros [E|H]%elem_of_cons; [discriminate | auto].
      * left. apply list_elem_of_here.
      * destruct Ht as [Ht|Ht];
          [left; apply list_elem_of_further; exact Ht | right; exact Ht].
    + change (consume (Opt "--test" (Some v) :: args) st)
        with (consume args (do_append v st)).
      apply IH; simpl.
      * exact Hwf.
      * exact He.
      * intros [E|H]%elem_of_cons; [discriminate | auto].
      * intros _. eauto.
      * destruct Ho as [Ho|Ho];
          [left; apply list_elem_of_further; exact Ho | right; exact Ho].
      * left. apply list_elem_of_here.
Qed.

Lemma consume_parsed_wellformed (args : list arg) (st : parsing) (ns : Namespace) :
  consume args st = Parsed ns -> forallb wellformed args = true /\ extras st = [].
Proof.
  revert st. induction args as [|a args IH]; intros st H; simpl in H.
  - apply finish_parsed in H as (_ & _ & He). auto.
  - destruct a as [o v|s].
    + option_cases o.
      * destruct v; discriminate.
      * destruct v as [v|]; [|discriminate]. subst o.
        apply IH in H as [Hwf He]. simpl in *. auto.
      * destruct v as [v|]; [|discriminate]. subst o.
        apply IH in H as [Hwf He]. simpl in *. auto.
      * apply IH in H as [_ He]. simpl in He.
        apply app_eq_nil in He as [_ He]. discriminate.
    + apply IH in H as [_ He]. simpl in He.
      apply app_eq_nil in He as [_ He]. discriminate.
Qed.

(** X4. The command lines that parse are exactly those made of [--out] and
    [--test] occurrences with their arguments, at least one of each, in any
    order; the namespace then holds the last [--out] path and all the
    [--test] targets in order. A stray argument, an unknown option, [-h] or
    an option without its argument anywhere keeps the generator from
    running. *)
Theorem parse_accepts (argv : list arg) (args : Namespace) :
  parse argv = Parsed args
  <-> forallb wellformed argv = true
      /\ last (out_flags argv) = Some (out args)
      /\ test_flags argv <> []
      /\ test args = test_flags argv.
Proof.
  split.
  - intros H. destruct (consume_parsed_wellformed _ _ _ H) as [Hwf _].
    destruct (parse_parsed _ _ H) as (Ht & Hne & _ & Ho). auto.
  - intros (Hwf & Ho & Hne & Ht).
    destruct (consume_wellformed argv initial Hwf) as [ns Hns]; simpl; auto.
    + intros H. now apply elem_of_nil in H.
    + intros H. now apply elem_of_nil in H.
    + right. intros E. rewrite E in Ho. discriminate.
    + unfold parse. rewrite Hns. f_equal.
      destruct (parse_parsed _ _ Hns) as (Ht' & _ & _ & Ho').
      destruct ns, args. simpl in *. congruence.
Qed.

Lemma parse_accepts_witness :
  parse argv_twice = Parsed {| out := "/tmp/t.sh"; test := ["b"; "a"; "b"] |}.
Proof.
  apply (proj2 (parse_accepts argv_twice
                  {| out := "/tmp/t.sh"; test := ["b"; "a"; "b"] |})).
  vm_compute. repeat split. discriminate.
Defined.

(** ** Help comes first *)

Lemma consume_help_first (pre rest : list arg) (h : string) (st : parsing) :
  forallb (fun a => negb (halts a)) pre = true ->
  h = "-h" \/ h = "--help" ->
  consume (pre ++ Opt h None :: rest) st = Help.
Proof.
  intros Hpre Hh. revert st. induction pre as [|a pre IH]; intros st.
  - destruct Hh as [-> | ->]; reflexivity.
  - simpl in Hpre. apply andb_prop in Hpre as [Ha Hpre]. simpl.
    destruct a as [o v|s]; [|apply IH; assumption].
    unfold halts in Ha. destruct (lookup_option o) as [x|]; [|apply IH; assumption].
    destruct (act x), v; try discriminate Ha; apply IH; assumption.
Qed.

(** X5. Once [-h] or [--help] is met, after complete options and stray or
    unknown arguments only, the help is shown and the process exits with
    status 0 in the world as it was, whatever follows and whatever is
    missing. *)
Theorem help_first (pre rest : list arg) (h : string) (w : world) :
  forallb (fun a => negb (halts a)) pre = true ->
  h = "-h" \/ h = "--help" ->
  parse (pre ++ Opt h None :: rest) = Help
  /\ program (pre ++ Opt h None :: rest) w = Raise (SystemExit 0) w
  /\ exit_status (program (pre ++ Opt h None :: rest) w) = 0.
Proof.
  intros Hpre Hh.
  assert (Hp : parse (pre ++ Opt h None :: rest) = Help)
    by (now apply consume_help_first).
  pose proof (program_parse (pre ++ Opt h None :: rest) w) as Hprog.
  rewrite Hp in Hprog. rewrite Hprog. auto.
Qed.

Lemma help_first_witness :
  parse argv_help_late = Help
  /\ program argv_help_late w0 = Raise (SystemExit 0) w0
  /\ exit_status (program argv_help_late w0) = 0.
Proof.
  apply (help_first [Positional "stray"; Opt "--bogus" None; Opt "--test" (Some "t")]
           [Opt "--out" None] "--help" w0).
  - vm_compute. reflexivity.
  - right. reflexivity.
Defined.

(** ** The exit status, case by case *)



(** ** What a run changes in the filesystem *)



(** X8. When the directory step fails, or the output file cannot be
    opened, the invocation ends there with that error and exit status 1, and
    no regular file was created or changed: the world differs from the
    initial one by directories created only, which are left behind. *)
Theorem failure_before_write (argv : list arg) (args : Namespace) (w w' : world) (e : exn) :
  parse argv = Parsed args ->
  ensure_dir (os.path.dirname (out args)) w = Raise e w'
  \/ (ensure_dir (os.path.dirname (out args)) w = Return tt w'
      /\ open_w (out args) w' = Raise e w') ->
  main argv w = Raise e w'
  /\ exit_status (program argv w) = 1
  /\ only_dirs_added w w'.
Proof.
  intros Hp Hfail.
  pose proof (ensure_dir_adds (os.path.dirname (out args)) w) as Ha.
  assert (Hm : main argv w = Raise e w' /\ only_dirs_added w w').
  { rewrite (main_parsed _ _ _ Hp). unfold generate, bind.
    destruct Hfail as [H1|[H1 H2]]; rewrite H1 in *; simpl in Ha.
    - auto.
    - unfold open_w_write, bind. rewrite H2. auto. }
  destruct Hm as [Hm Hadd]. split_and!; auto.
  rewrite program_main, Hm.
  rewrite (main_parsed _ _ _ Hp) in Hm.
  apply (generate_raises_status _ _ _ _ Hm).
Qed.

Lemma failure_before_write_witness :
  main argv_dot w0
  = Raise (EnvironmentError EISDIR) (final_world (os.makedirs "/tmp/newdir" w0))
  /\ exit_status (program argv_dot w0) = 1
  /\ only_dirs_added w0 (final_world (os.makedirs "/tmp/newdir" w0)).
Proof.
  apply (failure_before_write argv_dot
           {| out := "/tmp/newdir/."; test := ["./unit_test"] |} w0).
  - vm_compute. reflexivity.
  - right. split; vm_compute; reflexivity.
Defined.

Example directories_left_behind :
  os.path.isdir w0 "/tmp/newdir" = false
  /\ os.path.isdir (final_world (main argv_dot w0)) "/tmp/newdir" = true.
Proof. vm_compute. auto. Qed.




Example partial_script_example :
  file_content (final_world (main argv_shared w_limit)) "/tmp/run.sh" = Some "#!/bi"
  /\ file_mode (final_world (main argv_shared w_limit)) "/tmp/run.sh" = Some 420.
Proof. vm_compute. auto. Qed.

(** ** An output path that names a directory *)

Lemma dirname_comps_any (p : string) :
  os.path.dirname p <> EmptyString ->
  exists t,
    comps p = comps (os.path.dirname p) ++ (if Str.is_empty t then [] else [t])
    /\ (Str.is_empty t = true -> Str.ends_with_slash p = true).
Proof.
  unfold os.path.dirname.
  destruct (Str.rpartition_slash p) as [h t] eqn:E.
  destruct (rpartition_spec _ _ _ E) as (Hp & Ht & Hh). intros Hd.
  destruct Hh as [->|[x ->]]; [now destruct Hd|].
  rewrite str_app_assoc, str_app_cons, str_app_nil_l in Hp.
  assert (Hc : comps (x +:+ String Str.slash EmptyString) = comps x).
  { rewrite comps_app. apply app_nil_r. }
  exists t. split.
  - rewrite Hp at 1. rewrite comps_app. f_equal.
    + destruct (_ && _); [rewrite comps_rstrip|]; now rewrite Hc.
    + unfold comps. rewrite (split_slash_noslash t Ht). simpl.
      destruct t; reflexivity.
  - destruct t; [|discriminate]. intros _. rewrite Hp. apply ends_with_slash_app.
Qed.

(** What a path names lies in what its directory part names. *)
Lemma namei_dirname (w : world) (p : string) (c : cpath) (i : inode) :
  namei w p = inr (c, i) ->
  os.path.dirname p <> EmptyString ->
  path_exists w (os.path.dirname p) = true.
Proof.
  intros Hn Hd. destruct (namei_ends_dir _ _ _ _ Hn) as [Hi Hdir].
  destruct (dirname_comps_any p Hd) as (t & Hc & Hslash).
  unfold namei in Hn. destruct (Str.is_empty p); [discriminate|].
  rewrite Hc, walk_app in Hn.
  destruct (walk w (start w p) (comps (os.path.dirname p))) as [|d] eqn:Ew;
    [discriminate|].
  assert (Hex : exists x, files w !! d = Some x /\ is_dir x = true).
  { destruct (Str.is_empty t).
    - simpl in Hn. destruct (files w !! d) as [x|] eqn:Ex; [|discriminate].
      destruct (_ && _); [discriminate|]. injection Hn as -> ->.
      exists i. auto.
    - simpl in Hn. destruct (search_dir w d) eqn:Es; [discriminate|].
      apply search_dir_None in Es as (x & Hx & Hxd & _). eauto. }
  destruct Hex as (x & Hx & Hxd).
  unfold path_exists, namei.
  destruct (os.path.dirname p) as [|a s] eqn:Ed; [congruence|]. simpl Str.is_empty.
  cbv iota. unfold start in *. rewrite <- Ed, (dirname_starts p) by congruence.
  rewrite <- Ed in Ew. rewrite Ew, Hx, Hxd. now rewrite andb_false_r.
Qed.

Lemma sys_open_w_dir (w : world) (p : string) (c : cpath) (i : inode) :
  namei w p = inr (c, i) -> is_dir i = true ->
  sys_open_w p w = inl EISDIR.
Proof.
  intros Hn Hd. unfold namei in Hn. unfold sys_open_w, namei_parent.
  destruct (Str.is_empty p); [discriminate|].
  destruct (unsnoc (comps p)) as [[pre leaf]|] eqn:Eu; [|reflexivity].
  apply unsnoc_spec in Eu. rewrite Eu, walk_app in Hn.
  destruct (walk w (start w p) pre) as [|d]; [discriminate|]. simpl in Hn.
  destruct (search_dir w d); [discriminate|].
  destruct (Str.ends_with_slash p); [reflexivity|].
  destruct (is_dot leaf); [reflexivity|].
  destruct (is_dotdot leaf); [reflexivity|]. simpl in *.
  destruct (files w !! (d ++ [leaf])) as [x|]; [|discriminate].
  injection Hn as <- <-. unfold is_dir in Hd.
  destruct (i_kind x); [reflexivity | discriminate].
Qed.

(** X9. When the output path names a directory that exists, the
    invocation fails with exit status 1 and changes nothing: on the write
    (EISDIR), or before it on [os.makedirs] (ENOENT) when the path has no
    directory part. *)
Theorem out_is_directory (argv : list arg) (args : Namespace) (w : world)
    (c : cpath) (i : inode) :
  parse argv = Parsed args ->
  namei w (out args) = inr (c, i) ->
  is_dir i = true ->
  main argv w
  = Raise (EnvironmentError
             (if Str.is_empty (os.path.dirname (out args)) then ENOENT else EISDIR)) w
  /\ exit_status (program argv w) = 1
  /\ final_world (program argv w) = w.
Proof.
  intros Hp Hn Hd.
  assert (Hm : main argv w
               = Raise (EnvironmentError
                          (if Str.is_empty (os.path.dirname (out args))
                           then ENOENT else EISDIR)) w).
  { rewrite (main_parsed _ _ _ Hp). unfold generate, bind.
    destruct (os.path.dirname (out args)) as [|a s] eqn:Ed;
      [now rewrite ensure_dir_empty|].
    rewrite <- Ed.
    rewrite ensure_dir_existing
      by (apply (namei_dirname w (out args) c i Hn); congruence).
    unfold open_w_write, bind, open_w.
    rewrite (sys_open_w_dir w (out args) c i Hn Hd). now rewrite Ed. }
  rewrite program_main, Hm. auto.
Qed.

Lemma out_is_directory_witness :
  main argv_dir w_df = Raise (EnvironmentError EISDIR) w_df
  /\ exit_status (program argv_dir w_df) = 1
  /\ final_world (program argv_dir w_df) = w_df.
Proof.
  apply (out_is_directory argv_dir {| out := "/tmp/d"; test := ["./unit_test"] |}
           w_df ["tmp"; "d"] build_dir); reflexivity.
Defined.

(** ** A file that belongs to someone else *)

(** X10. A process that is not the superuser never succeeds on an output
    file that belongs to someone else: the invocation ends with exit status
    1. *)
Theorem not_owner_fails (argv : list arg) (args : Namespace) (w : world)
    (c : cpath) (i : inode) :
  parse argv = Parsed args ->
  namei w (out args) = inr (c, i) ->
  euid w <> 0%nat -> euid w <> i_uid i ->
  (forall w', main argv w <> Return tt w')
  /\ exit_status (program argv w) = 1.
Proof.
  intros Hp Hn Hroot Hown.
  assert (Hfail : forall w', generate args w <> Return tt w').
  { intros w' Hg.
    destruct (generate_success _ _ _ Hg)
      as (w1 & w2 & c2 & j & H1 & H2 & _ & _ & He12 & _ & Hn2 & _ & Hj & _).
    pose proof (ensure_dir_adds (os.path.dirname (out args)) w) as Ha.
    rewrite H1 in Ha. simpl in Ha.
    pose proof (namei_added _ _ _ _ _ Ha Hn) as Hn1.
    destruct (open_w_write_ok _ _ _ _ H2)
      as (_ & d & leaf & j0 & Hpar & Hs & Hdot & Hdd & Hn2' & _ & _ & Hold).
    rewrite Hn2 in Hn2'. injection Hn2' as -> <-.
    rewrite (namei_via_parent _ _ _ _ Hpar Hs Hdot Hdd) in Hn1.
    destruct (files w1 !! (d ++ [leaf])) as [i1|]; [|discriminate].
    injection Hn1 as <- ->. destruct Hold as [-> _]. simpl in Hj.
    destruct Ha as [(_ & Hu & _) _], He12 as (_ & Hu2 & _).
    rewrite Hu2, Hu in Hj. tauto. }
  split.
  - intros w'. rewrite (main_parsed _ _ _ Hp). apply Hfail.
  - rewrite program_main, (main_parsed _ _ _ Hp).
    destruct (generate args w) as [[] w'|e w'] eqn:Hg;
      [destruct (Hfail w' eq_refl)|].
    apply (generate_raises_status _ _ _ _ Hg).
Qed.

Lemma not_owner_fails_witness :
  (forall w', main argv_shared w_shared <> Return tt w')
  /\ exit_status (program argv_shared w_shared) = 1.
Proof.
  apply (not_owner_fails argv_shared {| out := "/tmp/run.sh"; test := ["./unit_test"] |}
           w_shared ["tmp"; "run.sh"] shared_file);
    try reflexivity; vm_compute; discriminate.
Defined.

(** ** The output paths that can succeed *)

Lemma namei_parent_last (w : world) (p : string) (d : cpath) (leaf : string) :
  namei_parent w p = inr (Some (d, leaf)) -> last (comps p) = Some leaf.
Proof.
  unfold namei_parent. destruct (Str.is_empty p); [discriminate|].
  destruct (unsnoc (comps p)) as [[pre z]|] eqn:Eu; [|discriminate].
  apply unsnoc_spec in Eu.
  destruct (walk w (start w p) pre); [discriminate|].
  destruct (search_dir w _); [discriminate|]. intros [= <- <-].
  rewrite Eu. apply last_snoc.
Qed.

(** X11. An invocation succeeds only on an output path that holds a slash,
    does not end with one, and whose last name is neither [.] nor [..]. *)
Theorem success_path_shape (argv : list arg) (w w' : world) :
  main argv w = Return tt w' ->
  exists args leaf,
    parse argv = Parsed args
    /\ Str.has_slash (out args) = true
    /\ Str.ends_with_slash (out args) = false
    /\ last (comps (out args)) = Some leaf
    /\ leaf <> "." /\ leaf <> "..".
Proof.
  intros (args & Hp & Hg)%main_inv.
  destruct (generate_steps _ _ _ Hg) as (w1 & w2 & H1 & H2 & _).
  destruct (open_w_write_ok _ _ _ _ H2)
    as (_ & d & leaf & j & Hpar & Hs & Hdot & Hdd & _).
  exists args, leaf. split_and!; auto.
  - destruct (Str.has_slash (out args)) eqn:E; [reflexivity|].
    apply dirname_noslash in E. now apply ensure_dir_nonempty in H1.
  - eapply namei_parent_last, Hpar.
  - now apply bool_decide_eq_false in Hdot.
  - now apply bool_decide_eq_false in Hdd.
Qed.

Lemma success_path_shape_witness :
  exists args leaf,
    parse argv0 = Parsed args
    /\ Str.has_slash (out args) = true
    /\ Str.ends_with_slash (out args) = false
    /\ last (comps (out args)) = Some leaf
    /\ leaf <> "." /\ leaf <> "..".
Proof.
  apply (success_path_shape argv0 w0 w0_done). vm_compute. reflexivity.
Defined.

(** ** The directories [os.makedirs] creates *)


Lemma comps_empty_string : comps EmptyString = [].
Proof. reflexivity. Qed.































(** ** A missing parent directory, from end to end *)




